(** * png2gif: the frame pipeline of [main.go]

    A shallow embedding of [readImages], [imagesEqual], [encodeImgPaletted],
    [writeGif] and [BuildGif], and the properties of the pipeline
    (run-length deduplication, palette encoding, delay computation).

    Whatever the Go program obtains from outside (the file system, the
    [image], [image/gif] and [images4] packages) is an operation of the
    class [World]; the program itself is written in a small monad that
    records the external calls it makes and ends in a value, a Go [error]
    or a run-time panic. *)

From Stdlib Require Import ZArith Lia PrimFloat Ascii String.
From stdpp Require Import base list strings sorting.

Open Scope Z_scope.

(** ** Go's [int]

    [int] is taken at 64 bits. Values live in [Z]; the arithmetic of the
    program ([delay++], [delay*i.delay], [100/fps]) wraps around as Go's
    does. *)
Module Int.
Definition bits : Z := 64.
Definition min_int : Z := - 2 ^ (bits - 1).
Definition max_int : Z := 2 ^ (bits - 1) - 1.

Definition in_range (z : Z) : Prop := min_int <= z <= max_int.

Definition wrap (z : Z) : Z := (z - min_int) mod 2 ^ bits + min_int.

Definition add (a b : Z) : Z := wrap (a + b).
Definition mul (a b : Z) : Z := wrap (a * b).
(** Go's [/] on integers truncates towards zero. *)
Definition quot (a b : Z) : Z := wrap (Z.quot a b).
End Int.

(** ** Go's [error] values *)

(** [ExtError] is an error produced outside the program;
    [WrapError msg err] is what [fmt.Errorf] builds with the verb [%w]. *)
Inductive goerror : Type :=
  | ExtError (msg : string)
  | WrapError (msg : string) (err : goerror).

(** The method [Error()]. *)
Definition Error (e : goerror) : string :=
  match e with
  | ExtError msg => msg
  | WrapError msg _ => msg
  end.

(** [fmt.Errorf(prefix + " (%s): %w", s, err)] *)
Definition Errorf (prefix s : string) (err : goerror) : goerror :=
  WrapError (prefix +:+ " (" +:+ s +:+ "): " +:+ Error err) err.

(** ** The thresholds of the YCbCr comparison *)

Definition thy : float := 100%float.
Definition thCbCr : float := 200%float.
(** The literal [0.001] of [imagesEqual], as the [float64] Go compares with. *)
Definition propTolerance : float := 0x1.0624dd2f1a9fcp-10%float.

(** Go's [x > y] on [float64]. *)
Definition fgt (x y : float) : bool := PrimFloat.ltb y x.

(** ** The outside world

    The operations are those of the Go packages the program calls, with
    the types their signatures give them. A call that fails returns its
    error on the left. An image that [image.Decode] or [gif.Decode] returns
    with a nil error is a decoded image, so [Image] has no nil value: the
    nil of the interface type [image.Image] is the [None] of
    [option Image]. What [gif.Decode] returns is an [image.Image] whose
    dynamic type the program tests, hence [assert_Paletted]. *)

Class World : Type := {
  (** an open [*os.File] *)
  File : Type;
  (** a decoded, non-nil [image.Image] *)
  Image : Type;
  (** the target of an [*image.Paletted] *)
  Paletted : Type;
  (** the contents of a [bytes.Buffer] *)
  Bytes : Type;
  (** [images4.IconT] *)
  IconT : Type;

  os_Open : string → goerror + File;
  image_Decode : File → goerror + Image;

  images4_Icon : Image → IconT;
  images4_PropMetric : IconT → IconT → float;
  images4_EucMetric : IconT → IconT → float * float * float;

  gif_Encode : Image → goerror + Bytes;
  gif_Decode : Bytes → goerror + Image;
  (** the type assertion of [img] to a pointer to [image.Paletted] *)
  assert_Paletted : Image → option Paletted;

  (** [os.Create]: [None] when the file was created *)
  os_Create : string → option goerror;
  (** [gif.EncodeAll] into the created file *)
  gif_EncodeAll : string → list Paletted → list Z → option goerror;
}.

(** ** Data of the program *)

Section Pipeline.
Context {W : World}.

(** [imgWithDelay]: [img] is an interface value and may be nil. *)
Record imgWithDelay : Type := ImgWithDelay {
  img : option Image;
  delay : Z;
}.

(** [palettedWithDelay] *)
Record palettedWithDelay : Type := PalettedWithDelay {
  paletted : Paletted;
  delay_p : Z;
}.

(** [gif.GIF], the two fields the program fills. *)
Record GIF : Type := MkGIF {
  gif_Image : list Paletted;
  gif_Delay : list Z;
}.

(** The calls into the similarity package. *)
Inductive oracle_op : Type := OpIcon | OpPropMetric | OpEucMetric.

(** What a run does to the outside, in order. *)
Inductive event : Type :=
  | EvOpen (s : string) (ok : bool)
  | EvDecode (s : string)
  | EvClose (s : string)
  | EvOracle (op : oracle_op)
  | EvGifEncode (ctr : nat)
  | EvGifDecode (ctr : nat)
  | EvCreate (path : string)
  | EvEncodeAll (path : string) (g : GIF).

(** ** The monad of the program *)

Inductive outcome (A : Type) : Type :=
  | Ok (a : A)
  | Err (e : goerror)
  | Panic (msg : string).
Global Arguments Ok {A} a.
Global Arguments Err {A} e.
Global Arguments Panic {A} msg.

Definition M (A : Type) : Type := list event * outcome A.

Definition ret {A} (a : A) : M A := ([], Ok a).

Definition bind {A B} (m : M A) (k : A → M B) : M B :=
  match m with
  | (t, Ok a) => let '(t', o) := k a in (t ++ t', o)
  | (t, Err e) => (t, Err e)
  | (t, Panic msg) => (t, Panic msg)
  end.

Definition emit (e : event) : M unit := ([e], Ok tt).
Definition fail {A} (e : goerror) : M A := ([], Err e).
Definition panic {A} (msg : string) : M A := ([], Panic msg).

Definition trace {A} (m : M A) : list event := fst m.
Definition result {A} (m : M A) : outcome A := snd m.
End Pipeline.

Notation "'do' x <- m ; k" := (bind m (λ x, k))
  (at level 10, x name, m at level 100, k at level 200,
   format "'[v' 'do'  x  <-  m ; '/' k ']'").
Notation "'do' ' p <- m ; k" := (bind m (λ x, let 'p := x in k))
  (at level 10, p pattern, m at level 100, k at level 200,
   format "'[v' 'do'  ' p  <-  m ; '/' k ']'").
Notation "'do' 'tt' <- m ; k" := (bind m (λ _ : unit, k))
  (at level 10, m at level 100, k at level 200,
   format "'[v' 'do'  'tt'  <-  m ; '/' k ']'").

Section Program.
Context {W : World}.

(** ** [imagesEqual] *)

Definition imagesEqual (a b : Image) : M bool :=
  do tt <- emit (EvOracle OpIcon);
  let iconA := images4_Icon a in
  do tt <- emit (EvOracle OpIcon);
  let iconB := images4_Icon b in
  do tt <- emit (EvOracle OpPropMetric);
  if fgt (images4_PropMetric iconA iconB) propTolerance then ret false
  else
    do tt <- emit (EvOracle OpEucMetric);
    let '(m1, m2, m3) := images4_EucMetric iconA iconB in
    if fgt m1 thy then ret false
    else if fgt m2 thCbCr || fgt m3 thCbCr then ret false
    else ret true.

(** ** [readImages] *)

(** [defer f.Close()]: the files opened during [m] are closed when the
    function returns, the last one first, on every way out. *)
Definition opened (e : event) : option string :=
  match e with
  | EvOpen s true => Some s
  | _ => None
  end.

Definition with_deferred_Close {A} (m : M A) : M A :=
  (trace m ++ map EvClose (reverse (omap opened (trace m))), result m).

Definition open (s : string) : M File :=
  match os_Open s with
  | inl err =>
      do tt <- emit (EvOpen s false);
      fail (Errorf "failed to open file" s err)
  | inr f =>
      do tt <- emit (EvOpen s true);
      ret f
  end.

Definition decode (s : string) (f : File) : M Image :=
  do tt <- emit (EvDecode s);
  match image_Decode f with
  | inl err => fail (Errorf "failed to decode image" s err)
  | inr i => ret i
  end.

(** The loop over [*files], with the three variables it updates; the
    last case is the code after the loop. *)
Fixpoint readImages_loop (files : list string)
    (images : list imgWithDelay) (prevImg : option Image) (delay : Z)
    : M (list imgWithDelay) :=
  match files with
  | s :: files' =>
      do f <- open s;
      do i <- decode s f;
      match prevImg with
      | Some prev =>
          do eq <- imagesEqual prev i;
          if negb eq then
            readImages_loop files'
              (images ++ [ImgWithDelay prevImg delay]) (Some i) 1
          else
            readImages_loop files' images prevImg (Int.add delay 1)
      | None =>
          readImages_loop files' images (Some i) delay
      end
  | [] =>
      ret (images ++ [ImgWithDelay prevImg delay])
  end.

Definition readImages (files : list string) : M (list imgWithDelay) :=
  with_deferred_Close (readImages_loop files [] None 1).

(** ** [encodeImgPaletted] *)

(** The body of one goroutine: it leaves through [return err] or
    [return nil], and writes slot [ctr] of [imgp] under the lock when the
    round trip gave a paletted image. A nil [im.img] makes [gif.Encode]
    call a method on a nil interface value. *)
Definition task (ctr : nat) (im : imgWithDelay)
    (imgp : list (option palettedWithDelay))
    : M (list (option palettedWithDelay) * option goerror) :=
  do tt <- emit (EvGifEncode ctr);
  match img im with
  | None => panic "invalid memory address or nil pointer dereference"
  | Some i =>
      match gif_Encode i with
      | inl err => ret (imgp, Some err)
      | inr b =>
          do tt <- emit (EvGifDecode ctr);
          match gif_Decode b with
          | inl err => ret (imgp, Some err)
          | inr i' =>
              match assert_Paletted i' with
              | Some p =>
                  ret (<[ctr := Some (PalettedWithDelay p (delay im))]> imgp,
                       None)
              | None => ret (imgp, None)
              end
          end
      end
  end.

(** [errgroup.Group]: the first error returned by a task is kept. *)
Definition errOnce (kept new : option goerror) : option goerror :=
  match kept with
  | Some e => Some e
  | None => new
  end.

(** The goroutines of the group. They share nothing but [imgp], which
    each writes under [lck] at its own index, and the error of the group,
    which [errgroup] keeps once; so each goroutine is run here in one
    piece, in the order [sched] in which they come to their end. The
    context of the group is dropped by the program: an error stops no
    other goroutine. A panic in a goroutine ends the program. *)
Fixpoint run_group (sched : list nat) (images : list imgWithDelay)
    (imgp : list (option palettedWithDelay)) (err : option goerror)
    : M (list (option palettedWithDelay) * option goerror) :=
  match sched with
  | ctr :: sched' =>
      match images !! ctr with
      | Some im =>
          do '(imgp', e) <- task ctr im imgp;
          run_group sched' images imgp' (errOnce err e)
      | None => run_group sched' images imgp err
      end
  | [] => ret (imgp, err)
  end.

Definition encodeImgPaletted (sched : list nat) (images : list imgWithDelay)
    : M (list (option palettedWithDelay)) :=
  let imgp := replicate (length images) None in
  do '(imgp', err) <- run_group sched images imgp None;
  match err with
  | Some e => fail e
  | None => ret imgp'
  end.

(** ** [writeGif] *)

(** The loop that fills [g]; reading a field of a nil entry panics. *)
Fixpoint writeGif_loop (im : list (option palettedWithDelay)) (delay : Z)
    (g : GIF) : M GIF :=
  match im with
  | Some i :: im' =>
      writeGif_loop im' delay
        (MkGIF (gif_Image g ++ [paletted i])
               (gif_Delay g ++ [Int.mul delay (delay_p i)]))
  | None :: _ => panic "invalid memory address or nil pointer dereference"
  | [] => ret g
  end.

Definition writeGif (im : list (option palettedWithDelay)) (delay : Z)
    (path : string) : M unit :=
  do g <- writeGif_loop im delay (MkGIF [] []);
  do tt <- emit (EvCreate path);
  match os_Create path with
  | Some err => fail err
  | None =>
      do tt <- emit (EvEncodeAll path g);
      do tt <- emit (EvClose path);
      match gif_EncodeAll path (gif_Image g) (gif_Delay g) with
      | Some err => fail err
      | None => ret tt
      end
  end.

(** ** [BuildGif] *)

(** [fps = 0] stands for 30; the delay of one source frame is [100/fps]
    hundredths of a second. [sched n] is the order in which the [n]
    encoding goroutines run. *)
Definition BuildGif (sched : nat → list nat) (files : list string)
    (out : string) (fps : Z) : M unit :=
  let fps := if fps =? 0 then 30 else fps in
  do img <- readImages files;
  do im_p <- encodeImgPaletted (sched (length img)) img;
  writeGif im_p (Int.quot 100 fps) out.

(** A scheduler runs every goroutine exactly once. *)
Definition fair (sched : nat → list nat) : Prop :=
  ∀ n, sched n ≡ₚ seq 0 n.
End Program.

(** ** A small world to run the program in

    A file holds a picture named by the first letter of its path:
    [missing.png] cannot be opened and [broken.png] cannot be decoded.
    Pictures whose letters differ only in case pass the proportion test and
    fail the luma test; other different letters fail the proportion test.
    Picture [e] is refused by the GIF encoder, and the round trip of
    picture [x] gives an image that is not paletted. *)
Module Toy.
Definition lower (c : ascii) : ascii :=
  let n := nat_of_ascii c in
  if (65 <=? n)%nat && (n <=? 90)%nat then ascii_of_nat (n + 32) else c.

Definition open_file (s : string) : goerror + string :=
  if String.eqb s "missing.png"
  then inl (ExtError "open missing.png: no such file or directory")
  else inr s.

Definition decode_file (f : string) : goerror + ascii :=
  if String.eqb f "broken.png" then inl (ExtError "image: unknown format")
  else
    match f with
    | String c _ => inr c
    | EmptyString => inl (ExtError "image: unknown format")
    end.

Definition PropMetric (a b : ascii) : float :=
  if Ascii.eqb (lower a) (lower b) then 0%float else 0.5%float.

Definition EucMetric (a b : ascii) : float * float * float :=
  if Ascii.eqb a b then (0%float, 0%float, 0%float)
  else (150%float, 0%float, 0%float).

Definition encode (i : ascii) : goerror + ascii :=
  if Ascii.eqb i "e" then inl (ExtError "gif: image is too large to encode")
  else inr i.

Definition as_paletted (i : ascii) : option ascii :=
  if Ascii.eqb i "x" then None else Some i.

Definition world : World := {|
  File := string;
  Image := ascii;
  Paletted := ascii;
  Bytes := ascii;
  IconT := ascii;
  os_Open := open_file;
  image_Decode := decode_file;
  images4_Icon := λ i, i;
  images4_PropMetric := PropMetric;
  images4_EucMetric := EucMetric;
  gif_Encode := encode;
  gif_Decode := λ b, inr b;
  assert_Paletted := as_paletted;
  os_Create := λ _, None;
  gif_EncodeAll := λ _ _ _, None;
|}.

(** The goroutines run in the order they were started. *)
Definition in_order (n : nat) : list nat := seq 0 n.

(** Some inputs and what the stages make of them. *)
Definition run (c : ascii) (n : Z) : @imgWithDelay world :=
  ImgWithDelay (W:=world) (Some c) n.
Definition stored (c : ascii) (n : Z) : @palettedWithDelay world :=
  PalettedWithDelay (W:=world) c n.
Definition animation (cs : list ascii) (ds : list Z) : @GIF world :=
  MkGIF (W:=world) cs ds.

Definition AAB : list string := ["A1.png"; "A2.png"; "B.png"].
Definition AxB : list string := ["A1.png"; "x.png"; "B.png"].
End Toy.

(** ** The directory listing and the command of the form

    [listFiles], [fpsValidator] and [gen]. The operations of the packages
    they call come on top of those of [World]: a directory is opened with
    the [os.Open] of [World] and read with [Readdir]. *)

Class Shell {W : World} : Type := {
  (** [fs.FileInfo], with its methods [IsDir] and [Name] *)
  FileInfo : Type;
  fi_IsDir : FileInfo → bool;
  fi_Name : FileInfo → string;
  (** [dir.Readdir(-1)] *)
  file_Readdir : File → goerror + list FileInfo;
  filepath_Ext : string → string;
  (** [filepath.Join] of two elements *)
  filepath_Join : string → string → string;
  (** [strconv.ParseInt(c, 10, 64)]: the value, and the error if any *)
  strconv_ParseInt : string → Z * option goerror;
  (** what [time.Since(start)] returns at the end of a conversion, in
      nanoseconds *)
  time_Since : Z;
}.

(** [sort.Strings] sorts in increasing order of Go's [<] on strings, the
    order of the bytes; the sorted list is unique, so that any sorting
    function stands for it. *)
Definition sort_Strings (files : list string) : list string :=
  merge_sort String.le files.

(** [strings.ReplaceAll(s, " ", "")] *)
Fixpoint ReplaceAll_spaces (s : string) : string :=
  match s with
  | String c s' =>
      if Ascii.eqb c " " then ReplaceAll_spaces s'
      else String c (ReplaceAll_spaces s')
  | EmptyString => EmptyString
  end.

Section Listing.
Context {W : World} {Sh : Shell}.

(** What listing and converting do to the outside, in order; [ShRun] is
    an event of [BuildGif]. *)
Inductive shell_event : Type :=
  | ShNow
  | ShOpenDir (path : string) (ok : bool)
  | ShReaddir (path : string)
  | ShCloseDir (path : string)
  | ShRun (e : event)
  | ShSince.

(** [resultMsg]; [duration] is a [time.Duration], a number of
    nanoseconds. *)
Record resultMsg : Type := ResultMsg {
  duration : Z;
  emoji : string;
  err : option goerror;
}.

(** A command either returns its message or dies of a panic. *)
Inductive returned (A : Type) : Type :=
  | Returns (a : A)
  | Crashes (msg : string).
Global Arguments Returns {A} a.
Global Arguments Crashes {A} msg.

(** ** [fpsValidator] *)

Definition fpsValidator (s : string) : option goerror :=
  let c := ReplaceAll_spaces s in
  snd (strconv_ParseInt c).

(** ** [listFiles] *)

(** The loop over [fileInfos], with the slice [files] it appends to. *)
Fixpoint listFiles_loop (path : string) (fileInfos : list FileInfo)
    (files : list string) : list string :=
  match fileInfos with
  | fi :: fileInfos' =>
      if negb (fi_IsDir fi) then
        if String.eqb (filepath_Ext (fi_Name fi)) ".png"
           || String.eqb (filepath_Ext (fi_Name fi)) ".jpg"
        then listFiles_loop path fileInfos'
               (files ++ [filepath_Join path (fi_Name fi)])
        else listFiles_loop path fileInfos' files
      else listFiles_loop path fileInfos' files
  | [] => files
  end.

(** The directory is closed by [defer dir.Close()] once it was opened. *)
Definition listFiles (path : string)
    : list shell_event * (goerror + list string) :=
  match os_Open path with
  | inl e => ([ShOpenDir path false], inl e)
  | inr dir =>
      match file_Readdir dir with
      | inl e =>
          ([ShOpenDir path true; ShReaddir path; ShCloseDir path], inl e)
      | inr fileInfos =>
          ([ShOpenDir path true; ShReaddir path; ShCloseDir path],
           inr (sort_Strings (listFiles_loop path fileInfos [])))
      end
  end.

(** ** [gen] *)

(** The command that [gen] returns, run to its end: [gen] replaces an
    empty [output] when it is called, the rest happens when the command
    runs. The error of [strconv.ParseInt] is dropped. *)
Definition gen (sched : nat → list nat) (path output fps : string)
    : list shell_event * returned resultMsg :=
  let output := if String.eqb output "" then "out.gif" else output in
  let '(listing, paths) := listFiles path in
  match paths with
  | inl e => (ShNow :: listing, Returns (ResultMsg 0 "📂" (Some e)))
  | inr paths =>
      let c := ReplaceAll_spaces fps in
      let c := if String.eqb c "" then "30" else c in
      let fpsVal := fst (strconv_ParseInt c) in
      let run := BuildGif sched paths output (Int.wrap fpsVal) in
      match result run with
      | Err e =>
          (ShNow :: listing ++ map ShRun (trace run),
           Returns (ResultMsg 0 "🔨" (Some e)))
      | Ok _ =>
          (ShNow :: listing ++ map ShRun (trace run) ++ [ShSince],
           Returns (ResultMsg time_Since "🎉" None))
      | Panic msg =>
          (ShNow :: listing ++ map ShRun (trace run), Crashes msg)
      end
  end.
End Listing.

(** ** The form

    [model], [initialModel], [nextInput], [prevInput] and [Update]. The
    text inputs and the spinner are those of the [bubbles] package: their
    exported fields are the fields of a record here, the rest of their
    state and their methods are operations of the class [Tui]. [View],
    [Init] and [main] only call the terminal packages and are left out. *)

(** [textinput.Model]: the exported fields that the program sets, and the
    rest of the state. *)
Record textinput_Model (St : Type) : Type := TextInput {
  Placeholder : string;
  Width : Z;
  Prompt : string;
  CharLimit : Z;
  Validate : option (string → option goerror);
  ti_state : St;
}.
Arguments TextInput {St}.
Arguments Placeholder {St}.
Arguments Width {St}.
Arguments Prompt {St}.
Arguments CharLimit {St}.
Arguments Validate {St}.
Arguments ti_state {St}.

(** The types of key that [Update] tells apart. *)
Inductive keyType : Type :=
  | KeyEnter | KeyCtrlC | KeyEsc | KeyShiftTab | KeyCtrlP | KeyTab | KeyCtrlN
  | KeyOther.

(** The messages: a [tea.KeyMsg] with its type and the rest of its
    content, a [tea.WindowSizeMsg], a [resultMsg], an error, or a message
    that [Update] only passes on. *)
Inductive msg (KeyData Other : Type) : Type :=
  | KeyMsg (ty : keyType) (k : KeyData)
  | WindowSizeMsg (width height : Z)
  | ResultM (r : resultMsg)
  | ErrMsg (e : goerror)
  | OtherMsg (o : Other).
Arguments KeyMsg {KeyData Other}.
Arguments WindowSizeMsg {KeyData Other}.
Arguments ResultM {KeyData Other}.
Arguments ErrMsg {KeyData Other}.
Arguments OtherMsg {KeyData Other}.

Class Tui : Type := {
  TIState : Type;
  Spinner : Type;
  (** the commands that the inputs and the spinner return *)
  ExtCmd : Type;
  KeyData : Type;
  Other : Type;

  textinput_New : textinput_Model TIState;
  ti_Focus : textinput_Model TIState → textinput_Model TIState;
  ti_Blur : textinput_Model TIState → textinput_Model TIState;
  ti_Value : textinput_Model TIState → string;
  ti_Update : msg KeyData Other → textinput_Model TIState
              → textinput_Model TIState * ExtCmd;

  (** [spinner.New()] with the spinner [MiniDot] and the style of
      [initialModel] *)
  spinner_styled : Spinner;
  spinner_Update : msg KeyData Other → Spinner → Spinner * ExtCmd;
}.

Section Form.
Context {W : World} {Sh : Shell} {T : Tui}.

(** [model]; the fields [duration] and [err] are [m_duration] and
    [m_err]. *)
Record model : Type := Model {
  inputs : list (textinput_Model TIState);
  focused : Z;
  spinner : Spinner;
  loading : bool;
  m_duration : Z;
  finished : bool;
  m_err : option goerror;
}.

(** The commands that [Update] returns: nil, [tea.Quit], the command of
    [gen], or the batch of the commands of the inputs and the spinner. *)
Inductive cmd : Type :=
  | CmdNil
  | CmdQuit
  | CmdGen (path output fps : string)
  | CmdBatch (cmds : list ExtCmd).

(** The constants [path], [output] and [fps]. *)
Definition in_path : Z := 0.
Definition in_output : Z := 1.
Definition in_fps : Z := 2.

(** Reading and writing an element of a slice: an index out of range is
    a panic. *)
Definition bindR {A B} (r : returned A) (k : A → returned B) : returned B :=
  match r with
  | Returns a => k a
  | Crashes m => Crashes m
  end.

Definition index {A} (l : list A) (k : Z) : returned A :=
  if (0 <=? k) && (k <? Z.of_nat (length l)) then
    match l !! Z.to_nat k with
    | Some a => Returns a
    | None => Crashes "index out of range"
    end
  else Crashes "index out of range".

Definition update_index {A} (l : list A) (k : Z) (f : A → A)
    : returned (list A) :=
  bindR (index l k) (λ a, Returns (<[Z.to_nat k := f a]> l)).

Definition set_Width (w : Z) (t : textinput_Model TIState)
    : textinput_Model TIState :=
  TextInput (Placeholder t) w (Prompt t) (CharLimit t) (Validate t)
    (ti_state t).
Definition set_Placeholder (p : string) (t : textinput_Model TIState)
    : textinput_Model TIState :=
  TextInput p (Width t) (Prompt t) (CharLimit t) (Validate t) (ti_state t).
Definition set_Prompt (p : string) (t : textinput_Model TIState)
    : textinput_Model TIState :=
  TextInput (Placeholder t) (Width t) p (CharLimit t) (Validate t)
    (ti_state t).
Definition set_CharLimit (n : Z) (t : textinput_Model TIState)
    : textinput_Model TIState :=
  TextInput (Placeholder t) (Width t) (Prompt t) n (Validate t) (ti_state t).
Definition set_Validate (v : string → option goerror)
    (t : textinput_Model TIState) : textinput_Model TIState :=
  TextInput (Placeholder t) (Width t) (Prompt t) (CharLimit t) (Some v)
    (ti_state t).

Definition set_inputs (l : list (textinput_Model TIState)) (m : model)
    : model :=
  Model l (focused m) (spinner m) (loading m) (m_duration m) (finished m)
    (m_err m).
Definition set_focused (k : Z) (m : model) : model :=
  Model (inputs m) k (spinner m) (loading m) (m_duration m) (finished m)
    (m_err m).

(** ** [initialModel] *)

Definition initialModel : model :=
  let i_path :=
    set_Prompt ""
      (set_Width 30
         (ti_Focus (set_Placeholder "/path/to/folder/" textinput_New))) in
  let i_output :=
    set_Prompt "" (set_Width 20 (set_Placeholder "output.gif" textinput_New)) in
  let i_fps :=
    set_Validate fpsValidator
      (set_Prompt ""
         (set_Width 5 (set_CharLimit 2 (set_Placeholder "30" textinput_New)))) in
  Model [i_path; i_output; i_fps] 0 spinner_styled false 0 false None.

(** ** [nextInput] and [prevInput] *)

(** [%] by a length of 0 is a panic. *)
Definition nextInput (m : model) : returned model :=
  if Z.of_nat (length (inputs m)) =? 0 then
    Crashes "integer divide by zero"
  else
    Returns (set_focused
               (Z.rem (Int.add (focused m) 1) (Z.of_nat (length (inputs m))))
               m).

Definition prevInput (m : model) : model :=
  let f := Int.add (focused m) (-1) in
  if f <? 0 then set_focused (Z.of_nat (length (inputs m)) - 1) m
  else set_focused f m.

(** ** [Update] *)

Definition busy (m : model) : bool :=
  loading m || finished m || match m_err m with Some _ => true | None => false end.

(** [for i := range m.inputs { m.inputs[i].Blur() }] and
    [m.inputs[m.focused].Focus()] *)
Definition blur_all (m : model) : model := set_inputs (map ti_Blur (inputs m)) m.

Definition focus_current (m : model) : returned model :=
  bindR (update_index (inputs m) (focused m) ti_Focus)
    (λ l, Returns (set_inputs l m)).

(** The three widths that follow the width of the window. *)
Definition set_widths (w : Z) (m : model) : returned model :=
  bindR (update_index (inputs m) in_path (set_Width w)) (λ l1,
  bindR (update_index l1 in_output (set_Width (Int.quot w 2))) (λ l2,
  bindR (update_index l2 in_fps (set_Width (Int.quot w 2))) (λ l3,
  Returns (set_inputs l3 m)))).

(** The end of [Update]: every input and the spinner get the message,
    and their commands are batched. *)
Definition update_inputs (mg : msg KeyData Other) (m : model)
    : returned (model * cmd) :=
  let updated := map (ti_Update mg) (inputs m) in
  let '(sp, cmdSpin) := spinner_Update mg (spinner m) in
  Returns
    (Model (map fst updated) (focused m) sp (loading m) (m_duration m)
       (finished m) (m_err m),
     CmdBatch (map snd updated ++ [cmdSpin])).

(** After the keys that move the focus. *)
Definition refocus (mg : msg KeyData Other) (m : model)
    : returned (model * cmd) :=
  bindR (focus_current (blur_all m)) (update_inputs mg).

Definition Update (m : model) (mg : msg KeyData Other)
    : returned (model * cmd) :=
  match mg with
  | KeyMsg KeyEnter _ =>
      if loading m then Returns (m, CmdNil)
      else if finished m
              || match m_err m with Some _ => true | None => false end then
        bindR (index (inputs m) in_path) (λ t,
        let w := Width t in
        let sp := spinner m in
        bindR (set_widths w initialModel) (λ m',
        Returns
          (Model (inputs m') (focused m') sp (loading m') (m_duration m')
             (finished m') (m_err m'),
           CmdNil)))
      else if focused m =? Z.of_nat (length (inputs m)) - 1 then
        let m := Model (inputs m) (focused m) (spinner m) true (m_duration m)
                   (finished m) (m_err m) in
        let m := blur_all m in
        bindR (index (inputs m) in_path) (λ tp,
        bindR (index (inputs m) in_output) (λ to,
        bindR (index (inputs m) in_fps) (λ tf,
        Returns (m, CmdGen (ti_Value tp) (ti_Value to) (ti_Value tf)))))
      else bindR (nextInput m) (refocus mg)
  | KeyMsg KeyCtrlC _ | KeyMsg KeyEsc _ => Returns (m, CmdQuit)
  | KeyMsg KeyShiftTab _ | KeyMsg KeyCtrlP _ =>
      if busy m then Returns (m, CmdNil) else refocus mg (prevInput m)
  | KeyMsg KeyTab _ | KeyMsg KeyCtrlN _ =>
      if busy m then Returns (m, CmdNil) else bindR (nextInput m) (refocus mg)
  | KeyMsg KeyOther _ => refocus mg m
  | WindowSizeMsg width _ => bindR (set_widths width m) (update_inputs mg)
  | ResultM r =>
      let m := Model (inputs m) (focused m) (spinner m) false (m_duration m)
                 (finished m) (m_err m) in
      bindR (update_index (inputs m) in_path ti_Focus) (λ l,
      let m := set_inputs l m in
      match err r with
      | Some e =>
          Returns
            (Model (inputs m) (focused m) (spinner m) (loading m)
               (m_duration m) (finished m) (Some e),
             CmdNil)
      | None =>
          Returns
            (Model (inputs m) (focused m) (spinner m) (loading m)
               (m_duration m) true (m_err m),
             CmdNil)
      end)
  | ErrMsg e =>
      Returns
        (Model (inputs m) (focused m) (spinner m) (loading m) (m_duration m)
           (finished m) (Some e),
         CmdNil)
  | OtherMsg _ => update_inputs mg m
  end.
End Form.

(** ** A second small world, with folders

    The folder [frames] holds, in this order, [B.png], [A2.png],
    [notes.txt], the folder [old] and [A1.png]; the folder [mixed] holds
    [bad.png], which does not decode, and [A1.png]; the folder [locked]
    opens but cannot be read, and [nowhere] does not open. A picture is
    named by a letter, and the pictures are compared and encoded as in the
    first small world; every decoded image is paletted, as with image/gif.
    No file can be created in [locked], and a GIF does not fit into
    [full]. *)
Module Desk.
Definition pictures : list (string * ascii) :=
  [("frames/A1.png", "A"%char); ("frames/A2.png", "A"%char);
   ("frames/B.png", "B"%char); ("mixed/A1.png", "A"%char)].

Fixpoint picture (table : list (string * ascii)) (f : string) : option ascii :=
  match table with
  | (name, c) :: table' =>
      if String.eqb name f then Some c else picture table' f
  | [] => None
  end.

Definition open_file (s : string) : goerror + string :=
  if String.eqb s "nowhere"
  then inl (ExtError "open nowhere: no such file or directory")
  else inr s.

Definition decode_file (f : string) : goerror + ascii :=
  match picture pictures f with
  | Some c => inr c
  | None => inl (ExtError "image: unknown format")
  end.

Definition create (p : string) : option goerror :=
  if String.eqb p "locked/out.gif"
  then Some (ExtError "open locked/out.gif: permission denied")
  else None.

Definition encode_all (p : string) (images : list ascii) (delays : list Z)
    : option goerror :=
  if String.eqb p "full/out.gif"
  then Some (ExtError "write full/out.gif: no space left on device")
  else None.

Definition world : World := {|
  File := string;
  Image := ascii;
  Paletted := ascii;
  Bytes := ascii;
  IconT := ascii;
  os_Open := open_file;
  image_Decode := decode_file;
  images4_Icon := λ i, i;
  images4_PropMetric := Toy.PropMetric;
  images4_EucMetric := Toy.EucMetric;
  gif_Encode := Toy.encode;
  gif_Decode := λ b, inr b;
  assert_Paletted := Some;
  os_Create := create;
  gif_EncodeAll := encode_all;
|}.

(** An entry of a directory: its name, and whether it is a directory. *)
Definition readdir (dir : @File world) : goerror + list (string * bool) :=
  if String.eqb dir "frames" then
    inr [("B.png", false); ("A2.png", false); ("notes.txt", false);
         ("old", true); ("A1.png", false)]
  else if String.eqb dir "mixed" then
    inr [("bad.png", false); ("A1.png", false)]
  else if String.eqb dir "locked" then
    inl (ExtError "readdirent locked: permission denied")
  else inr [].

(** The suffix of a name from its last dot on. *)
Fixpoint ext (s : string) : string :=
  match s with
  | String c s' =>
      match ext s' with
      | EmptyString => if Ascii.eqb c "." then s else EmptyString
      | e => e
      end
  | EmptyString => EmptyString
  end.

Definition join (dir name : string) : string := dir +:+ "/" +:+ name.

(** Decimal numbers, with a sign; no number is out of range here. *)
Fixpoint digits (acc : Z) (s : string) : option Z :=
  match s with
  | String c s' =>
      let n := Z.of_nat (nat_of_ascii c) in
      if (48 <=? n) && (n <=? 57) then digits (10 * acc + (n - 48)) s'
      else None
  | EmptyString => Some acc
  end.

Definition syntax (s : string) : goerror :=
  ExtError ("strconv.ParseInt: parsing " +:+ s +:+ ": invalid syntax").

Definition parse_int (s : string) : Z * option goerror :=
  match s with
  | EmptyString => (0, Some (syntax s))
  | String "-" EmptyString => (0, Some (syntax s))
  | String "-" s' =>
      match digits 0 s' with
      | Some v => (- v, None)
      | None => (0, Some (syntax s))
      end
  | _ =>
      match digits 0 s with
      | Some v => (v, None)
      | None => (0, Some (syntax s))
      end
  end.

Definition shell : @Shell world := {|
  FileInfo := string * bool;
  fi_IsDir := snd;
  fi_Name := fst;
  file_Readdir := readdir;
  filepath_Ext := ext;
  filepath_Join := join;
  strconv_ParseInt := parse_int;
  time_Since := 1500000000;
|}.

(** Text inputs that hold their value and whether they have the focus;
    a key that [Update] does not know is typed into the input that has the
    focus. The spinner counts the messages. *)
Definition typed (mg : msg ascii unit) (t : textinput_Model (bool * string))
    : textinput_Model (bool * string) * unit :=
  match mg with
  | KeyMsg KeyOther c =>
      if fst (ti_state t) then
        (TextInput (Placeholder t) (Width t) (Prompt t) (CharLimit t)
           (Validate t) (true, snd (ti_state t) +:+ String c EmptyString),
         tt)
      else (t, tt)
  | _ => (t, tt)
  end.

Definition with_focus (b : bool) (t : textinput_Model (bool * string))
    : textinput_Model (bool * string) :=
  TextInput (Placeholder t) (Width t) (Prompt t) (CharLimit t) (Validate t)
    (b, snd (ti_state t)).

Definition tui : Tui := {|
  TIState := bool * string;
  Spinner := nat;
  ExtCmd := unit;
  KeyData := ascii;
  Other := unit;
  textinput_New := TextInput "" 0 "> " 0 None (false, "");
  ti_Focus := with_focus true;
  ti_Blur := with_focus false;
  ti_Value := λ t, snd (ti_state t);
  ti_Update := typed;
  spinner_styled := 0%nat;
  spinner_Update := λ _ n, (S n, tt);
|}.

(** Two frames of the folder [frames] and what the stages make of
    them. *)
Definition AB : list string := ["frames/A1.png"; "frames/B.png"].
Definition run (c : ascii) (n : Z) : @imgWithDelay world :=
  ImgWithDelay (W:=world) (Some c) n.
Definition stored (c : ascii) (n : Z) : @palettedWithDelay world :=
  PalettedWithDelay (W:=world) c n.

(** The initial form with the focus on the last input, and the form at
    the end of a conversion. *)
Definition on_last : @model tui :=
  set_focused (T:=tui) 2 (initialModel (W:=world) (Sh:=shell) (T:=tui)).
Definition at_end : @model tui :=
  Model (T:=tui)
    (inputs (initialModel (W:=world) (Sh:=shell) (T:=tui))) 2 7%nat false 0
    true None.
End Desk.

(** ** Vocabulary of the statements *)

Section Vocabulary.
Context {W : World}.

(** The two metrics of a pair of images, as [imagesEqual] obtains them. *)
Definition propMetric (a b : Image) : float :=
  images4_PropMetric (images4_Icon a) (images4_Icon b).
Definition eucMetric (a b : Image) : float * float * float :=
  images4_EucMetric (images4_Icon a) (images4_Icon b).

(** The verdict of [imagesEqual] as a function of the metrics. *)
Definition same (a b : Image) : bool :=
  negb (fgt (propMetric a b) propTolerance
        || fgt (eucMetric a b).1.1 thy
        || fgt (eucMetric a b).1.2 thCbCr
        || fgt (eucMetric a b).2 thCbCr).

(** The rest of a turn of the loop of [readImages], once the path gave
    image [i] and [imagesEqual] gave its verdict. *)
Definition turn (files : list string) (images : list imgWithDelay)
    (prev : option Image) (d : Z) (i : Image) : M (list imgWithDelay) :=
  match prev with
  | Some p =>
      if same p i
      then readImages_loop files images prev (Int.add d 1)
      else readImages_loop files (images ++ [ImgWithDelay prev d]) (Some i) 1
  | None => readImages_loop files images (Some i) d
  end.

(** The loop keeps [delay] between 1 and the number of frames seen, so
    that [delay++] does not wrap on a list whose length is an [int]. *)
Definition room (files : list string) (prev : option Image) (d : Z) : Prop :=
  1 <= d ∧
  d + Z.of_nat (length files) <=
    Int.max_int + (match prev with Some _ => 0 | None => 1 end).

(** The calls into the similarity package that a trace holds. *)
Definition oracle_calls (t : list event) : list oracle_op :=
  omap (λ e, match e with EvOracle op => Some op | _ => None end) t.

(** A path that opens and decodes to image [i]. *)
Definition loads (s : string) (i : Image) : Prop :=
  ∃ f, os_Open s = inr f ∧ image_Decode f = inr i.

(** A path that fails to open or to decode, and the error that
    [readImages] makes of it. *)
Definition fails_with (s : string) (e : goerror) : Prop :=
  (∃ err, os_Open s = inl err ∧ e = Errorf "failed to open file" s err) ∨
  (∃ f err, os_Open s = inr f ∧ image_Decode f = inl err ∧
            e = Errorf "failed to decode image" s err).

Definition fails (s : string) : Prop := ∃ e, fails_with s e.

(** The message of [e] contains the path [s]. *)
Definition names (e : goerror) (s : string) : Prop :=
  ∃ before after, Error e = before +:+ s +:+ after.

(** An event of the decoding stage on one of [paths]: nothing of the
    encoder or of the assembler. *)
Definition reads_only (paths : list string) (e : event) : Prop :=
  match e with
  | EvOpen s _ | EvDecode s | EvClose s => s ∈ paths
  | EvOracle _ => True
  | _ => False
  end.

(** An event of the palette encoder. *)
Definition encodes_only (e : event) : Prop :=
  match e with
  | EvGifEncode _ | EvGifDecode _ => True
  | _ => False
  end.

(** The sum of the repetition counts of a list of runs. *)
Definition total_delay (images : list imgWithDelay) : Z :=
  foldr (λ im acc, delay im + acc) 0 images.

(** What the goroutine of run [im] leaves in its slot of [imgp] when it
    returns nil: the paletted image with the count of the run, or the nil
    the slot was made with. *)
Definition slot_of (im : imgWithDelay) : option palettedWithDelay :=
  match img im with
  | Some i =>
      match gif_Encode i with
      | inr b =>
          match gif_Decode b with
          | inr i' =>
              match assert_Paletted i' with
              | Some p => Some (PalettedWithDelay p (delay im))
              | None => None
              end
          | inl _ => None
          end
      | inl _ => None
      end
  | None => None
  end.

(** The error with which the goroutine of run [im] returns, if any. *)
Definition task_error (im : imgWithDelay) : option goerror :=
  match img im with
  | Some i =>
      match gif_Encode i with
      | inr b =>
          match gif_Decode b with
          | inr _ => None
          | inl err => Some err
          end
      | inl err => Some err
      end
  | None => None
  end.

(** [imgp[ctr] = o] when there is something to store. *)
Definition store (ctr : nat) (o : option palettedWithDelay)
    (imgp : list (option palettedWithDelay))
    : list (option palettedWithDelay) :=
  match o with
  | Some p => <[ctr := Some p]> imgp
  | None => imgp
  end.

(** Slot [k] once the goroutines of [sched] have run, from its content
    [old] before. *)
Definition settled (sched : list nat) (images : list imgWithDelay)
    (k : nat) (old : option palettedWithDelay) : option palettedWithDelay :=
  if bool_decide (k ∈ sched) then
    match images !! k ≫= slot_of with
    | Some p => Some p
    | None => old
    end
  else old.

(** The round trip of run [im] through the GIF codec yields image [i']. *)
Definition round_trip (im : imgWithDelay) (i' : Image) : Prop :=
  ∃ i b, img im = Some i ∧ gif_Encode i = inr b ∧ gif_Decode b = inr i'.



(** The events on source files, and what [readImages] does to a path
    that opens and decodes. *)
Definition file_event (e : event) : bool :=
  match e with
  | EvOpen _ _ | EvDecode _ | EvClose _ => true
  | _ => false
  end.

Definition reading (s : string) : list event := [EvOpen s true; EvDecode s].

(** The number of calls of one operation of the similarity package. *)
Definition is_op (op op' : oracle_op) : bool :=
  match op, op' with
  | OpIcon, OpIcon | OpPropMetric, OpPropMetric | OpEucMetric, OpEucMetric =>
      true
  | _, _ => false
  end.

Definition calls (op : oracle_op) (t : list event) : nat :=
  length (List.filter (is_op op) (oracle_calls t)).

(** The events of the comparison of a turn. *)
Definition compared (prev : option Image) (i : Image) : list event :=
  match prev with
  | Some p => trace (imagesEqual p i)
  | None => []
  end.

(** The events of the first two stages. *)
Definition before_writing (files : list string) (e : event) : Prop :=
  reads_only files e ∨ encodes_only e.

(** The GIF that [writeGif] builds from a list without nil entries. *)
Definition assembled (ps : list palettedWithDelay) (d : Z) : GIF :=
  MkGIF (map paletted ps) (map (λ p, Int.mul d (delay_p p)) ps).

(** The delay of one source frame, as [BuildGif] computes it. *)
Definition delay_unit (fps : Z) : Z :=
  Int.quot 100 (if fps =? 0 then 30 else fps).



(** The error of the first goroutine of [sched] that returns one. *)
Fixpoint first_error (sched : list nat) (images : list imgWithDelay)
    : option goerror :=
  match sched with
  | ctr :: sched' =>
      match images !! ctr ≫= task_error with
      | Some e => Some e
      | None => first_error sched' images
      end
  | [] => None
  end.

End Vocabulary.

Section ListingVocabulary.
Context {W : World} {Sh : Shell}.

(** An entry of the directory that [listFiles] keeps. *)
Definition wanted (fi : FileInfo) : bool :=
  negb (fi_IsDir fi)
  && (String.eqb (filepath_Ext (fi_Name fi)) ".png"
      || String.eqb (filepath_Ext (fi_Name fi)) ".jpg").

(** The directory cannot be opened or cannot be read, with error [e]. *)
Definition listing_fails (path : string) (e : goerror) : Prop :=
  os_Open path = inl e
  ∨ ∃ dir, os_Open path = inr dir ∧ file_Readdir dir = inl e.

(** The directory opens and holds the entries [infos]. *)
Definition lists (path : string) (infos : list FileInfo) : Prop :=
  ∃ dir, os_Open path = inr dir ∧ file_Readdir dir = inr infos.

(** The events of [BuildGif] among those of a command. *)
Definition run_events (t : list shell_event) : list event :=
  omap (λ e, match e with ShRun ev => Some ev | _ => None end) t.

(** The paths that a run tries to open, in order. *)
Definition open_attempts (t : list event) : list string :=
  omap (λ e, match e with EvOpen s _ => Some s | _ => None end) t.
End ListingVocabulary.

Section FormVocabulary.
Context {W : World} {Sh : Shell} {T : Tui}.

(** The form has its three inputs and the focus is on one of them. *)
Definition well_formed (m : model) : Prop :=
  length (inputs m) = 3%nat ∧ 0 <= focused m < 3.

(** No conversion is running or shown. *)
Definition idle (m : model) : Prop :=
  loading m = false ∧ finished m = false ∧ m_err m = None.
End FormVocabulary.

(** ** The monad *)

Section MonadFacts.
Context {W : World}.

Lemma result_bind {A B} (m : M A) (k : A → M B) :
  result (bind m k) =
    match result m with
    | Ok a => result (k a)
    | Err e => Err e
    | Panic msg => Panic msg
    end.
Proof.
  destruct m as [t [a|e|msg]]; simpl; try reflexivity.
  destruct (k a); reflexivity.
Qed.

Lemma trace_bind {A B} (m : M A) (k : A → M B) :
  trace (bind m k) =
    trace m ++ match result m with Ok a => trace (k a) | _ => [] end.
Proof.
  destruct m as [t [a|e|msg]]; simpl; rewrite ?app_nil_r; try reflexivity.
  destruct (k a); reflexivity.
Qed.

Lemma bind_Ok {A B} (m : M A) (k : A → M B) a :
  result m = Ok a → bind m k = (trace m ++ trace (k a), result (k a)).
Proof.
  destruct m as [t o]. simpl. intros ->. simpl. destruct (k a); reflexivity.
Qed.

Lemma bind_Err {A B} (m : M A) (k : A → M B) e :
  result m = Err e → bind m k = (trace m, Err e).
Proof. destruct m as [t o]. simpl. intros ->. reflexivity. Qed.

Lemma result_with_deferred_Close {A} (m : M A) :
  result (with_deferred_Close m) = result m.
Proof. reflexivity. Qed.

Lemma trace_with_deferred_Close {A} (m : M A) :
  trace (with_deferred_Close m) =
    trace m ++ map EvClose (reverse (omap opened (trace m))).
Proof. reflexivity. Qed.
End MonadFacts.

(** ** The similarity test *)

Section ImagesEqual.
Context {W : World}.

Lemma imagesEqual_result (a b : Image) :
  result (imagesEqual a b) = Ok (same a b).
Proof.
  unfold imagesEqual, same, propMetric, eucMetric.
  destruct (fgt (images4_PropMetric _ _) propTolerance); simpl;
    [reflexivity|].
  destruct (images4_EucMetric _ _) as [[m1 m2] m3]; simpl.
  destruct (fgt m1 thy); simpl; [reflexivity|].
  destruct (fgt m2 thCbCr); simpl; [reflexivity|].
  destruct (fgt m3 thCbCr); reflexivity.
Qed.

Lemma imagesEqual_trace (a b : Image) :
  trace (imagesEqual a b) =
    map EvOracle
      ([OpIcon; OpIcon; OpPropMetric]
       ++ (if fgt (propMetric a b) propTolerance then []
           else [OpEucMetric])).
Proof.
  unfold imagesEqual, propMetric, eucMetric.
  destruct (fgt (images4_PropMetric _ _) propTolerance); simpl;
    [reflexivity|].
  destruct (images4_EucMetric _ _) as [[m1 m2] m3]; simpl.
  destruct (fgt m1 thy); simpl; [reflexivity|].
  destruct (fgt m2 thCbCr); simpl; [reflexivity|].
  destruct (fgt m3 thCbCr); reflexivity.
Qed.

Lemma oracle_calls_map (ops : list oracle_op) :
  oracle_calls (map EvOracle ops) = ops.
Proof.
  unfold oracle_calls. induction ops as [|op ops IH]; simpl; [reflexivity|].
  f_equal. exact IH.
Qed.

(** C4. [imagesEqual] answers false when the proportion metric exceeds
    0.001, when the luma distance exceeds 100, or when one of the two
    chroma distances exceeds 200, and true otherwise; it asks for the
    Euclidean distances exactly when the proportion metric does not
    exceed 0.001. *)
Theorem imagesEqual_thresholds (a b : Image) :
  result (imagesEqual a b) =
    Ok (negb (fgt (propMetric a b) propTolerance
              || fgt (eucMetric a b).1.1 thy
              || fgt (eucMetric a b).1.2 thCbCr
              || fgt (eucMetric a b).2 thCbCr))
  ∧ oracle_calls (trace (imagesEqual a b)) =
      [OpIcon; OpIcon; OpPropMetric]
      ++ (if fgt (propMetric a b) propTolerance then [] else [OpEucMetric]).
Proof.
  split.
  - apply imagesEqual_result.
  - rewrite imagesEqual_trace. apply oracle_calls_map.
Qed.
End ImagesEqual.

(** ** The deduplication stage *)

Section ReadImages.
Context {W : World}.

(** One turn of the loop, by what the path does. *)
Lemma readImages_loop_open_fails s files images prev d err :
  os_Open s = inl err →
  readImages_loop (s :: files) images prev d =
    ([EvOpen s false], Err (Errorf "failed to open file" s err)).
Proof. intros H. simpl. unfold open. rewrite H. reflexivity. Qed.

Lemma readImages_loop_decode_fails s files images prev d f err :
  os_Open s = inr f → image_Decode f = inl err →
  readImages_loop (s :: files) images prev d =
    ([EvOpen s true; EvDecode s],
     Err (Errorf "failed to decode image" s err)).
Proof.
  intros H1 H2. simpl. unfold open, decode. rewrite H1. simpl.
  rewrite H2. reflexivity.
Qed.

Lemma readImages_loop_loads s files images prev d i :
  loads s i →
  readImages_loop (s :: files) images prev d =
    (EvOpen s true :: EvDecode s
       :: match prev with
          | Some p => trace (imagesEqual p i)
          | None => []
          end ++ trace (turn files images prev d i),
     result (turn files images prev d i)).
Proof.
  intros (f & H1 & H2). simpl. unfold open, decode. rewrite H1. simpl.
  rewrite H2. simpl. unfold turn. destruct prev as [p|]; simpl.
  - pose proof (imagesEqual_result p i) as Hr.
    destruct (imagesEqual p i) as [t o]. simpl in *. subst o.
    destruct (same p i); simpl;
      match goal with |- context [readImages_loop ?a ?b ?c ?e] =>
        destruct (readImages_loop a b c e) end; reflexivity.
  - destruct (readImages_loop files images (Some i) d); reflexivity.
Qed.

Lemma readImages_loop_fails s files images prev d e :
  fails_with s e →
  result (readImages_loop (s :: files) images prev d) = Err e.
Proof.
  intros [(err & H & ->)|(f & err & H1 & H2 & ->)].
  - rewrite (readImages_loop_open_fails _ _ _ _ _ _ H). reflexivity.
  - rewrite (readImages_loop_decode_fails _ _ _ _ _ _ _ H1 H2). reflexivity.
Qed.

Lemma loads_or_fails s : (∃ i, loads s i) ∨ (∃ e, fails_with s e).
Proof.
  unfold loads, fails_with.
  destruct (os_Open s) as [err|f] eqn:H1; [right; eauto|].
  destruct (image_Decode f) as [err|i] eqn:H2; [right|left]; eauto 10.
Qed.

Lemma Int_wrap_in_range z : Int.in_range z → Int.wrap z = z.
Proof.
  unfold Int.in_range, Int.wrap, Int.min_int, Int.max_int, Int.bits.
  intros H. rewrite Z.mod_small; lia.
Qed.

Lemma total_delay_app images images' :
  total_delay (images ++ images') = total_delay images + total_delay images'.
Proof.
  unfold total_delay. induction images as [|im images IH]; simpl; lia.
Qed.

Lemma room_add s files p d : room (s :: files) (Some p) d → Int.add d 1 = d + 1.
Proof.
  unfold room, Int.add. intros [H1 H2]. apply Int_wrap_in_range.
  unfold Int.in_range, Int.min_int, Int.max_int, Int.bits in *.
  simpl length in H2. lia.
Qed.

Lemma room_turn s files images prev d i :
  room (s :: files) prev d →
  ∃ images' p' d',
    turn files images prev d i = readImages_loop files images' (Some p') d' ∧
    room files (Some p') d' ∧
    (Forall (λ r, 1 <= delay r) images →
     Forall (λ r, 1 <= delay r) images') ∧
    total_delay images' + d'
      = total_delay images + d
        + (match prev with Some _ => 1 | None => 0 end).
Proof.
  intros Hroom. pose proof Hroom as [H1 H2]. simpl length in H2.
  unfold turn, room. destruct prev as [p|].
  - destruct (same p i).
    + exists images, p, (d + 1).
      rewrite (room_add _ _ _ _ Hroom).
      split; [reflexivity|]. split; [lia|]. split; [auto | lia].
    + exists (images ++ [ImgWithDelay (Some p) d]), i, 1.
      split; [reflexivity|]. split; [lia|]. split.
      * intros HF. apply Forall_app. split; [exact HF|].
        constructor; [exact H1 | constructor].
      * rewrite total_delay_app. unfold total_delay. simpl. lia.
  - exists images, i, d.
    split; [reflexivity|]. split; [lia|]. split; [auto | lia].
Qed.

Lemma readImages_loop_delay_pos files : ∀ images prev d imgs,
  room files prev d →
  Forall (λ r, 1 <= delay r) images →
  result (readImages_loop files images prev d) = Ok imgs →
  Forall (λ r, 1 <= delay r) imgs.
Proof.
  induction files as [|s files IH]; intros images prev d imgs Hroom HF Hr.
  - simpl in Hr. injection Hr as <-. apply Forall_app. split; [exact HF|].
    constructor; [apply Hroom | constructor].
  - destruct (loads_or_fails s) as [[i Hi]|[e He]].
    + rewrite (readImages_loop_loads _ _ _ _ _ _ Hi) in Hr. simpl in Hr.
      destruct (room_turn s files images prev d i Hroom)
        as (images' & p' & d' & Ht & Hroom' & HF' & _).
      rewrite Ht in Hr. exact (IH _ _ _ _ Hroom' (HF' HF) Hr).
    + rewrite (readImages_loop_fails _ _ _ _ _ _ He) in Hr. discriminate.
Qed.

Lemma readImages_loop_total files : ∀ images prev d imgs,
  room files prev d →
  result (readImages_loop files images prev d) = Ok imgs →
  total_delay imgs =
    total_delay images + d + Z.of_nat (length files)
    - (match prev, files with None, _ :: _ => 1 | _, _ => 0 end).
Proof.
  induction files as [|s files IH]; intros images prev d imgs Hroom Hr.
  - simpl in Hr. injection Hr as <-. rewrite total_delay_app.
    unfold total_delay. simpl. destruct prev; lia.
  - destruct (loads_or_fails s) as [[i Hi]|[e He]].
    + rewrite (readImages_loop_loads _ _ _ _ _ _ Hi) in Hr. simpl in Hr.
      destruct (room_turn s files images prev d i Hroom)
        as (images' & p' & d' & Ht & Hroom' & _ & Hsum).
      rewrite Ht in Hr. rewrite (IH _ _ _ _ Hroom' Hr).
      simpl length. destruct prev; destruct files; lia.
    + rewrite (readImages_loop_fails _ _ _ _ _ _ He) in Hr. discriminate.
Qed.

Lemma room_start (files : list string) :
  Z.of_nat (length files) <= Int.max_int → room files None 1.
Proof. unfold room. lia. Qed.

(** X1. On a list of paths that is not empty and that [readImages]
    accepts, the repetition counts of the runs add up to the number of
    paths. *)
Lemma readImages_total s files imgs :
  Z.of_nat (length (s :: files)) <= Int.max_int →
  result (readImages (s :: files)) = Ok imgs →
  total_delay imgs = Z.of_nat (length (s :: files)).
Proof.
  intros Hlen Hr. unfold readImages in Hr.
  rewrite result_with_deferred_Close in Hr.
  rewrite (readImages_loop_total _ _ _ _ _ (room_start _ Hlen) Hr).
  unfold total_delay. simpl foldr. lia.
Qed.

Lemma readImages_loop_all_same files : ∀ images i0 d,
  Forall (λ s, ∃ i, loads s i ∧ same i0 i = true) files →
  room files (Some i0) d →
  result (readImages_loop files images (Some i0) d) =
    Ok (images ++ [ImgWithDelay (Some i0) (d + Z.of_nat (length files))]).
Proof.
  induction files as [|s files IH]; intros images i0 d Hall Hroom.
  - simpl. rewrite Z.add_0_r. reflexivity.
  - inversion Hall as [|? ? (i & Hi & Hsame) Hall']; subst.
    rewrite (readImages_loop_loads _ _ _ _ _ _ Hi). simpl.
    rewrite Hsame, (room_add _ _ _ _ Hroom).
    rewrite IH; [|exact Hall'|].
    + simpl length. rewrite Nat2Z.inj_succ.
      replace (d + 1 + Z.of_nat (length files))
        with (d + Z.succ (Z.of_nat (length files))) by lia.
      reflexivity.
    + destruct Hroom as [H1 H2]. simpl length in H2. unfold room. lia.
Qed.

(** *** What the stage touches *)

Lemma reads_only_mono paths paths' e :
  paths ⊆ paths' → reads_only paths e → reads_only paths' e.
Proof. intros Hsub. destruct e; simpl; auto. Qed.

Lemma reads_only_oracle paths ops :
  Forall (reads_only paths) (map EvOracle ops).
Proof. apply Forall_forall. intros e (op & -> & _)%list_elem_of_fmap. exact I. Qed.

Lemma turn_is_loop files images prev d i :
  ∃ images' prev' d',
    turn files images prev d i = readImages_loop files images' prev' d'.
Proof.
  unfold turn. destruct prev as [p|]; [destruct (same p i)|]; eauto.
Qed.

Lemma readImages_loop_reads_only files : ∀ images prev d,
  Forall (reads_only files) (trace (readImages_loop files images prev d)).
Proof.
  induction files as [|s files IH]; intros images prev d.
  - constructor.
  - assert (s ∈ s :: files) as Hs by apply list_elem_of_here.
    destruct (os_Open s) as [err|f] eqn:H1.
    { rewrite (readImages_loop_open_fails _ _ _ _ _ _ H1).
      simpl. repeat constructor. }
    destruct (image_Decode f) as [err|i] eqn:H2.
    { rewrite (readImages_loop_decode_fails _ _ _ _ _ _ _ H1 H2).
      simpl. repeat constructor. }
    assert (loads s i) as Hi by (exists f; auto).
    rewrite (readImages_loop_loads _ _ _ _ _ _ Hi). simpl.
    constructor; [exact Hs|]. constructor; [exact Hs|].
    apply Forall_app. split.
    + destruct prev as [p|]; [|constructor].
      rewrite imagesEqual_trace. apply reads_only_oracle.
    + destruct (turn_is_loop files images prev d i)
        as (images' & prev' & d' & ->).
      eapply Forall_impl; [apply IH|].
      intros e. apply reads_only_mono. apply list_subseteq_cons.
      reflexivity.
Qed.

Lemma opened_reads_only paths t s :
  Forall (reads_only paths) t → s ∈ omap opened t → s ∈ paths.
Proof.
  intros HF (e & He & Ho)%list_elem_of_omap.
  rewrite Forall_forall in HF. specialize (HF e He).
  destruct e as [s' [|]| | | | | | |]; simpl in Ho; try discriminate.
  injection Ho as <-. exact HF.
Qed.

Lemma readImages_reads_only files :
  Forall (reads_only files) (trace (readImages files)).
Proof.
  unfold readImages. rewrite trace_with_deferred_Close.
  pose proof (readImages_loop_reads_only files [] None 1) as HF.
  apply Forall_app. split; [exact HF|].
  apply Forall_forall. intros e (s & -> & Hs)%list_elem_of_fmap.
  simpl. apply (opened_reads_only _ _ _ HF).
  rewrite elem_of_reverse in Hs. exact Hs.
Qed.

(** *** A path that fails ends the loop *)

Lemma readImages_loop_abort s post e pre : ∀ images prev d,
  Forall (λ p, ∃ i, loads p i) pre →
  fails_with s e →
  readImages_loop (pre ++ s :: post) images prev d
    = readImages_loop (pre ++ [s]) images prev d
  ∧ result (readImages_loop (pre ++ s :: post) images prev d) = Err e.
Proof.
  induction pre as [|p pre IH]; intros images prev d Hpre He.
  - simpl app. split; [|apply readImages_loop_fails; exact He].
    destruct He as [(err & H & ->)|(f & err & H1 & H2 & ->)].
    + rewrite !(readImages_loop_open_fails _ _ _ _ _ _ H). reflexivity.
    + rewrite !(readImages_loop_decode_fails _ _ _ _ _ _ _ H1 H2).
      reflexivity.
  - inversion Hpre as [|? ? [i Hi] Hpre']; subst.
    rewrite <- !app_comm_cons.
    rewrite !(readImages_loop_loads _ _ _ _ _ _ Hi). simpl.
    unfold turn.
    destruct prev as [q|]; [destruct (same q i)|];
      match goal with
      | |- context [readImages_loop (_ ++ [_]) ?a ?b ?c] =>
          destruct (IH a b c Hpre' He) as [Heq Hr]
      end;
      rewrite Heq in Hr |- *; (split; [reflexivity | exact Hr]).
Qed.

Lemma names_Errorf s err :
  names (Errorf "failed to open file" s err) s
  ∧ names (Errorf "failed to decode image" s err) s.
Proof.
  split.
  - exists "failed to open file (", ("): " +:+ Error err). reflexivity.
  - exists "failed to decode image (", ("): " +:+ Error err). reflexivity.
Qed.

Lemma fails_with_names s e : fails_with s e → names e s.
Proof.
  intros [(err & _ & ->)|(f & err & _ & _ & ->)]; apply names_Errorf.
Qed.
End ReadImages.

(** ** The palette encoder *)

Section EncodeImgPaletted.
Context {W : World}.

Lemma task_result ctr im imgp i :
  img im = Some i →
  result (task ctr im imgp) = Ok (store ctr (slot_of im) imgp, task_error im).
Proof.
  intros Hi. unfold task, slot_of, task_error. rewrite Hi. simpl.
  destruct (gif_Encode i) as [err|b]; simpl; [reflexivity|].
  destruct (gif_Decode b) as [err|i']; simpl; [reflexivity|].
  destruct (assert_Paletted i'); reflexivity.
Qed.

Lemma task_panics ctr im imgp :
  img im = None →
  result (task ctr im imgp)
    = Panic "invalid memory address or nil pointer dereference".
Proof. intros Hi. unfold task. rewrite Hi. reflexivity. Qed.

Lemma task_encodes_only ctr im imgp :
  Forall encodes_only (trace (task ctr im imgp)).
Proof.
  unfold task. destruct (img im) as [i|]; simpl; [|repeat constructor].
  destruct (gif_Encode i) as [err|b]; simpl; [repeat constructor|].
  destruct (gif_Decode b) as [err|i']; simpl; [repeat constructor|].
  destruct (assert_Paletted i'); repeat constructor.
Qed.

Lemma run_group_encodes_only images sched : ∀ imgp err,
  Forall encodes_only (trace (run_group sched images imgp err)).
Proof.
  induction sched as [|c sched IH]; intros imgp err; simpl; [constructor|].
  destruct (images !! c) as [im|]; [|apply IH].
  rewrite trace_bind. apply Forall_app. split; [apply task_encodes_only|].
  destruct (result (task c im imgp)) as [[imgp1 e]| |]; [apply IH| |];
    constructor.
Qed.

(** One goroutine more: what [run_group] does with the head of the
    schedule. *)
Lemma run_group_cons images c sched imgp err im :
  images !! c = Some im →
  result (run_group (c :: sched) images imgp err) =
    match img im with
    | Some _ =>
        result (run_group sched images (store c (slot_of im) imgp)
                  (errOnce err (task_error im)))
    | None => Panic "invalid memory address or nil pointer dereference"
    end.
Proof.
  intros Him. simpl. rewrite Him, result_bind.
  destruct (img im) as [i|] eqn:Hi.
  - rewrite (task_result _ _ _ _ Hi). reflexivity.
  - rewrite (task_panics _ _ _ Hi). reflexivity.
Qed.

Lemma run_group_skip images c sched imgp err :
  images !! c = None →
  run_group (c :: sched) images imgp err = run_group sched images imgp err.
Proof. intros Him. simpl. rewrite Him. reflexivity. Qed.

Lemma length_store c o imgp : length (store c o imgp) = length imgp.
Proof. destruct o; simpl; [apply length_insert | reflexivity]. Qed.

Lemma lookup_store c o imgp k :
  store c o imgp !! k =
    (λ old, if bool_decide (k = c)
            then match o with Some p => Some p | None => old end
            else old) <$> imgp !! k.
Proof.
  destruct o as [p|]; simpl.
  - destruct (decide (k = c)) as [->|Hne].
    + rewrite bool_decide_eq_true_2 by reflexivity.
      destruct (decide (c < length imgp)%nat) as [Hlt|Hge].
      * rewrite list_lookup_insert_eq by exact Hlt.
        destruct (lookup_lt_is_Some_2 imgp c Hlt) as [old ->]. reflexivity.
      * rewrite list_insert_ge by lia.
        rewrite (lookup_ge_None_2 imgp c) by lia. reflexivity.
    + rewrite bool_decide_eq_false_2 by exact Hne.
      rewrite list_lookup_insert_ne by auto.
      destruct (imgp !! k); reflexivity.
  - destruct (imgp !! k); simpl; [|reflexivity].
    destruct (bool_decide (k = c)); reflexivity.
Qed.

Lemma settled_cons images c sched k old :
  settled (c :: sched) images k old =
    settled sched images k
      (if bool_decide (k = c)
       then match images !! c ≫= slot_of with
            | Some p => Some p
            | None => old
            end
       else old).
Proof.
  unfold settled. destruct (decide (k = c)) as [->|Hne].
  - rewrite (bool_decide_eq_true_2 (c ∈ c :: sched))
      by apply list_elem_of_here.
    rewrite (bool_decide_eq_true_2 (c = c)) by reflexivity.
    destruct (images !! c ≫= slot_of) as [p|];
      destruct (bool_decide (c ∈ sched)); reflexivity.
  - rewrite (bool_decide_eq_false_2 (k = c)) by exact Hne.
    destruct (decide (k ∈ sched)) as [Hin|Hnin].
    + rewrite !bool_decide_eq_true_2; [reflexivity|exact Hin|].
      apply list_elem_of_further. exact Hin.
    + rewrite !bool_decide_eq_false_2; [reflexivity|exact Hnin|].
      intros [?|?]%elem_of_cons; contradiction.
Qed.

Lemma run_group_slots images sched : ∀ imgp err imgp' err',
  result (run_group sched images imgp err) = Ok (imgp', err') →
  length imgp' = length imgp
  ∧ ∀ k, imgp' !! k = settled sched images k <$> imgp !! k.
Proof.
  induction sched as [|c sched IH]; intros imgp err imgp' err' Hr.
  - simpl in Hr. injection Hr as <- <-. split; [reflexivity|].
    intros k. unfold settled. simpl.
    destruct (imgp !! k); reflexivity.
  - destruct (images !! c) as [im|] eqn:Him.
    + rewrite (run_group_cons _ _ _ _ _ _ Him) in Hr.
      destruct (img im); [|discriminate].
      apply IH in Hr as [Hlen Hk]. rewrite length_store in Hlen.
      split; [exact Hlen|]. intros k.
      rewrite Hk, lookup_store.
      destruct (imgp !! k) as [old|]; simpl; [|reflexivity].
      rewrite settled_cons, Him. reflexivity.
    + rewrite (run_group_skip _ _ _ _ _ Him) in Hr.
      apply IH in Hr as [Hlen Hk]. split; [exact Hlen|]. intros k.
      rewrite Hk.
      destruct (imgp !! k) as [old|]; simpl; [|reflexivity].
      rewrite settled_cons, Him. simpl.
      destruct (bool_decide (k = c)); reflexivity.
Qed.

(** A group that ends without an error ran no goroutine that returned
    one, and none that met a nil image. *)
Lemma run_group_clean images sched : ∀ imgp err imgp',
  result (run_group sched images imgp err) = Ok (imgp', None) →
  err = None
  ∧ ∀ k im, k ∈ sched → images !! k = Some im →
      is_Some (img im) ∧ task_error im = None.
Proof.
  induction sched as [|c sched IH]; intros imgp err imgp' Hr.
  - simpl in Hr. injection Hr as <- ->. split; [reflexivity|].
    intros k im Hk. apply not_elem_of_nil in Hk. contradiction.
  - destruct (images !! c) as [im|] eqn:Him.
    + rewrite (run_group_cons _ _ _ _ _ _ Him) in Hr.
      destruct (img im) as [i|] eqn:Hi; [|discriminate].
      apply IH in Hr as [He Hk].
      destruct err as [e|]; [discriminate|]. simpl in He.
      split; [reflexivity|]. intros k im' [->|Hin]%elem_of_cons Hk'.
      * rewrite Him in Hk'. injection Hk' as <-. rewrite Hi. eauto.
      * eauto.
    + rewrite (run_group_skip _ _ _ _ _ Him) in Hr.
      apply IH in Hr as [He Hk]. split; [exact He|].
      intros k im' [->|Hin]%elem_of_cons Hk'; [congruence | eauto].
Qed.

Lemma run_group_runs images sched : ∀ imgp,
  (∀ k im, k ∈ sched → images !! k = Some im →
     is_Some (img im) ∧ task_error im = None) →
  ∃ imgp', result (run_group sched images imgp None) = Ok (imgp', None).
Proof.
  induction sched as [|c sched IH]; intros imgp Hall.
  - exists imgp. reflexivity.
  - assert (∀ k im, k ∈ sched → images !! k = Some im →
              is_Some (img im) ∧ task_error im = None) as Hall'.
    { intros k im Hk. apply Hall. apply list_elem_of_further. exact Hk. }
    destruct (images !! c) as [im|] eqn:Him.
    + rewrite (run_group_cons _ _ _ _ _ _ Him).
      destruct (Hall c im (list_elem_of_here _ _) Him) as [[i Hi] He].
      rewrite Hi, He. simpl. apply IH. exact Hall'.
    + rewrite (run_group_skip _ _ _ _ _ Him). apply IH. exact Hall'.
Qed.

Lemma encodeImgPaletted_Ok sched images imgp :
  result (encodeImgPaletted sched images) = Ok imgp ↔
  result (run_group sched images (replicate (length images) None) None)
    = Ok (imgp, None).
Proof.
  unfold encodeImgPaletted. rewrite result_bind.
  destruct (result (run_group _ _ _ _)) as [[imgp' [e|]]| |]; simpl;
    split; intros H; try discriminate; injection H as ->; reflexivity.
Qed.

Lemma encodeImgPaletted_encodes_only sched images :
  Forall encodes_only (trace (encodeImgPaletted sched images)).
Proof.
  unfold encodeImgPaletted. rewrite trace_bind.
  apply Forall_app. split; [apply run_group_encodes_only|].
  destruct (result (run_group _ _ _ _)) as [[imgp' [e|]]| |];
    constructor.
Qed.

(** What a successful call leaves in each slot. *)
Lemma encodeImgPaletted_lookup sched images imgp :
  result (encodeImgPaletted sched images) = Ok imgp →
  length imgp = length images
  ∧ (∀ k im, images !! k = Some im →
       imgp !! k = Some (settled sched images k None))
  ∧ (∀ k im, k ∈ sched → images !! k = Some im →
       is_Some (img im) ∧ task_error im = None).
Proof.
  intros Hr%encodeImgPaletted_Ok.
  destruct (run_group_slots _ _ _ _ _ _ Hr) as [Hlen Hk].
  rewrite length_replicate in Hlen.
  split; [exact Hlen|]. split; [|apply (run_group_clean _ _ _ _ _ Hr)].
  intros k im Him. rewrite Hk.
  rewrite lookup_replicate_2; [reflexivity|].
  apply lookup_lt_Some in Him. exact Him.
Qed.

Lemma round_trip_clean im i' :
  round_trip im i' →
  is_Some (img im) ∧ task_error im = None
  ∧ slot_of im = (λ p, PalettedWithDelay p (delay im)) <$> assert_Paletted i'.
Proof.
  intros (i & b & Hi & Hb & Hi'). unfold task_error, slot_of.
  rewrite Hi, Hb, Hi'. split; [eauto|]. split; [reflexivity|].
  destruct (assert_Paletted i'); reflexivity.
Qed.

Lemma clean_round_trip im :
  is_Some (img im) → task_error im = None → ∃ i', round_trip im i'.
Proof.
  intros [i Hi]. unfold task_error, round_trip. rewrite Hi.
  destruct (gif_Encode i) as [err|b] eqn:Hb; [discriminate|].
  destruct (gif_Decode b) as [err|i'] eqn:Hi'; [discriminate|].
  intros _. exists i', i, b. auto.
Qed.

Lemma settled_in sched images k im old :
  k ∈ sched → images !! k = Some im →
  settled sched images k old =
    match slot_of im with Some p => Some p | None => old end.
Proof.
  intros Hk Him. unfold settled.
  rewrite bool_decide_eq_true_2 by exact Hk. rewrite Him. reflexivity.
Qed.

(** A slot that is not nil holds the count of the run at its index. *)
Lemma settled_Some sched images k p :
  settled sched images k None = Some p →
  ∃ im, images !! k = Some im ∧ slot_of im = Some p.
Proof.
  unfold settled. destruct (bool_decide (k ∈ sched)); [|discriminate].
  destruct (images !! k) as [im|]; simpl; [|discriminate].
  destruct (slot_of im) as [q|] eqn:Hq; [|discriminate].
  intros [= <-]. eauto.
Qed.


Lemma fair_elem_of (sched : list nat) n k :
  sched ≡ₚ seq 0 n → (k < n)%nat → k ∈ sched.
Proof. intros -> Hk. apply elem_of_seq. lia. Qed.

(** A schedule only changes the order of the goroutines: the slots and
    the success of the call do not depend on it. *)
Lemma encodeImgPaletted_any_order sched sched' images imgp :
  sched ≡ₚ seq 0 (length images) →
  sched' ≡ₚ seq 0 (length images) →
  result (encodeImgPaletted sched images) = Ok imgp →
  result (encodeImgPaletted sched' images) = Ok imgp.
Proof.
  intros Hs Hs' Hr.
  destruct (encodeImgPaletted_lookup _ _ _ Hr) as (Hlen & Hk & Hclean).
  destruct (run_group_runs images sched' (replicate (length images) None))
    as [imgp' Hr'].
  { intros k im Hin Him. apply (Hclean k im); [|exact Him].
    apply (fair_elem_of _ _ _ Hs). apply lookup_lt_Some in Him. exact Him. }
  apply encodeImgPaletted_Ok in Hr'.
  destruct (encodeImgPaletted_lookup _ _ _ Hr') as (Hlen' & Hk' & _).
  rewrite Hr'. f_equal. apply list_eq. intros k.
  destruct (images !! k) as [im|] eqn:Him.
  - assert (k < length images)%nat as Hlt by (apply lookup_lt_Some in Him; exact Him).
    rewrite (Hk _ _ Him), (Hk' _ _ Him).
    rewrite (settled_in sched _ _ im), (settled_in sched' _ _ im);
      eauto using fair_elem_of.
  - apply lookup_ge_None in Him.
    rewrite !lookup_ge_None_2 by lia. reflexivity.
Qed.
End EncodeImgPaletted.

(** ** The assembler *)

Section WriteGif.
Context {W : World}.

Lemma writeGif_loop_trace im d : ∀ g, trace (writeGif_loop im d g) = [].
Proof.
  induction im as [|[i|] im IH]; intros g; simpl; [reflexivity| |reflexivity].
  apply IH.
Qed.

(** The loop ends normally on a list without nil entries only, with one
    image and one delay per entry, in order. *)
Lemma writeGif_loop_Ok im d : ∀ g0 g,
  result (writeGif_loop im d g0) = Ok g →
  ∃ ps, im = map Some ps
    ∧ gif_Image g = gif_Image g0 ++ map paletted ps
    ∧ gif_Delay g = gif_Delay g0 ++ map (λ p, Int.mul d (delay_p p)) ps.
Proof.
  induction im as [|[i|] im IH]; intros g0 g Hr; simpl in Hr.
  - injection Hr as <-. exists []. simpl. rewrite !app_nil_r. auto.
  - apply IH in Hr as (ps & -> & HI & HD). exists (i :: ps). simpl in *.
    rewrite HI, HD, <- !app_assoc. auto.
  - discriminate.
Qed.

Lemma writeGif_loop_runs ps d : ∀ g0,
  result (writeGif_loop (map Some ps) d g0) =
    Ok (MkGIF (gif_Image g0 ++ map paletted ps)
              (gif_Delay g0 ++ map (λ p, Int.mul d (delay_p p)) ps)).
Proof.
  induction ps as [|p ps IH]; intros g0; simpl.
  - rewrite !app_nil_r. destruct g0; reflexivity.
  - rewrite IH. simpl. rewrite <- !app_assoc. reflexivity.
Qed.

(** A nil entry stops the loop with a panic. *)
Lemma writeGif_loop_nil im d : ∀ k g,
  im !! k = Some None →
  result (writeGif_loop im d g)
    = Panic "invalid memory address or nil pointer dereference".
Proof.
  induction im as [|[i|] im IH]; intros k g Hk.
  - discriminate.
  - destruct k as [|k]; [discriminate|]. simpl in *. eapply IH. exact Hk.
  - reflexivity.
Qed.

Lemma writeGif_nil im d path k :
  im !! k = Some None →
  writeGif im d path
    = ([], Panic "invalid memory address or nil pointer dereference").
Proof.
  intros Hk. unfold writeGif.
  pose proof (writeGif_loop_trace im d (MkGIF [] [])) as Ht.
  pose proof (writeGif_loop_nil im d k (MkGIF [] []) Hk) as Hr.
  destruct (writeGif_loop im d (MkGIF [] [])) as [t o]. simpl in *.
  subst. reflexivity.
Qed.

(** The GIF given to [gif.EncodeAll] is the one the loop built. *)
Lemma writeGif_persisted im d out path g :
  EvEncodeAll path g ∈ trace (writeGif im d out) →
  result (writeGif_loop im d (MkGIF [] [])) = Ok g.
Proof.
  unfold writeGif. rewrite trace_bind, writeGif_loop_trace. simpl.
  destruct (result (writeGif_loop im d (MkGIF [] []))) as [g'| |];
    [|intros []%not_elem_of_nil..].
  destruct (os_Create out) as [err|]; simpl.
  - intros [[=]|[]%not_elem_of_nil]%elem_of_cons.
  - destruct (gif_EncodeAll out _ _); simpl.
    all: intros [[=]|[[= -> ->]|[[=]|[]%not_elem_of_nil]%elem_of_cons
                      ]%elem_of_cons]%elem_of_cons.
    all: reflexivity.
Qed.
End WriteGif.

(** ** The whole conversion *)

Section BuildGif.
Context {W : World}.

(** The delay unit that [BuildGif] hands to [writeGif]. *)
Lemma BuildGif_unfold sched files out fps :
  BuildGif sched files out fps =
    (do img <- readImages files;
     do im_p <- encodeImgPaletted (sched (length img)) img;
     writeGif im_p (Int.quot 100 (if fps =? 0 then 30 else fps)) out).
Proof. reflexivity. Qed.

Lemma BuildGif_read_fails sched files out fps e :
  result (readImages files) = Err e →
  BuildGif sched files out fps = (trace (readImages files), Err e).
Proof. intros Hr. rewrite BuildGif_unfold. apply bind_Err. exact Hr. Qed.

Lemma BuildGif_stages sched files out fps images imgp :
  result (readImages files) = Ok images →
  result (encodeImgPaletted (sched (length images)) images) = Ok imgp →
  BuildGif sched files out fps =
    (trace (readImages files)
     ++ trace (encodeImgPaletted (sched (length images)) images)
     ++ trace (writeGif imgp
                 (Int.quot 100 (if fps =? 0 then 30 else fps)) out),
     result (writeGif imgp
               (Int.quot 100 (if fps =? 0 then 30 else fps)) out)).
Proof.
  intros Hr He. rewrite BuildGif_unfold.
  rewrite (bind_Ok _ _ _ Hr). rewrite (bind_Ok _ _ _ He). reflexivity.
Qed.

Lemma reads_only_not_EncodeAll paths t path g :
  Forall (reads_only paths) t → EvEncodeAll path g ∉ t.
Proof.
  intros HF Hin. rewrite Forall_forall in HF. exact (HF _ Hin).
Qed.

Lemma encodes_only_not_EncodeAll t path g :
  Forall encodes_only t → EvEncodeAll path g ∉ t.
Proof.
  intros HF Hin. rewrite Forall_forall in HF. exact (HF _ Hin).
Qed.

(** A GIF is handed to [gif.EncodeAll] only after the three stages. *)
Lemma BuildGif_persisted sched files out fps path g :
  EvEncodeAll path g ∈ trace (BuildGif sched files out fps) →
  ∃ images imgp,
    result (readImages files) = Ok images
    ∧ result (encodeImgPaletted (sched (length images)) images) = Ok imgp
    ∧ result (writeGif_loop imgp
                (Int.quot 100 (if fps =? 0 then 30 else fps)) (MkGIF [] []))
      = Ok g.
Proof.
  rewrite BuildGif_unfold, trace_bind.
  intros [Hin|Hin]%elem_of_app.
  { exfalso. revert Hin. eapply reads_only_not_EncodeAll.
    apply readImages_reads_only. }
  destruct (result (readImages files)) as [images| |];
    [|apply not_elem_of_nil in Hin; contradiction..].
  rewrite trace_bind in Hin. apply elem_of_app in Hin as [Hin|Hin].
  { exfalso. revert Hin. apply encodes_only_not_EncodeAll.
    apply encodeImgPaletted_encodes_only. }
  destruct (result (encodeImgPaletted _ images)) as [imgp| |] eqn:He;
    [|apply not_elem_of_nil in Hin; contradiction..].
  exists images, imgp. split; [reflexivity|]. split; [exact He|].
  eapply writeGif_persisted. exact Hin.
Qed.


Lemma delay_le_total images : ∀ run,
  Forall (λ r, 1 <= delay r) images →
  run ∈ images → delay run <= total_delay images.
Proof.
  unfold total_delay.
  induction images as [|im images IH]; intros run HF Hin.
  - apply not_elem_of_nil in Hin. contradiction.
  - inversion HF as [|? ? H1 HF']; subst. simpl.
    assert (0 <= foldr (λ im acc, delay im + acc) 0 images) as Hpos.
    { clear -HF'. induction images as [|x xs IHx]; simpl; [lia|].
      inversion HF'; subst. specialize (IHx ltac:(assumption)). lia. }
    apply elem_of_cons in Hin as [->|Hin]; [lia|].
    specialize (IH _ HF' Hin). lia.
Qed.

(** A count is at least 1 and at most the number of paths. *)
Lemma readImages_delay_bounds files images run :
  Z.of_nat (length files) <= Int.max_int →
  result (readImages files) = Ok images →
  run ∈ images →
  1 <= delay run <= Z.max 1 (Z.of_nat (length files)).
Proof.
  intros Hlen Hr Hin. unfold readImages in Hr.
  rewrite result_with_deferred_Close in Hr.
  pose proof (readImages_loop_delay_pos _ _ _ _ _ (room_start _ Hlen)
                (Forall_nil_2 _) Hr) as HF.
  pose proof (readImages_loop_total _ _ _ _ _ (room_start _ Hlen) Hr) as Ht.
  pose proof (delay_le_total _ _ HF Hin) as Hle.
  rewrite Forall_forall in HF. specialize (HF _ Hin).
  unfold total_delay in Ht at 2. simpl in Ht.
  destruct files; simpl length in *; lia.
Qed.
End BuildGif.

(** ** Properties of the pipeline *)

Section Properties.
Context {W : World}.


(** C2 (the code at the empty list). [readImages] accepts the empty list
    and emits one run of count 1 for it, so that the counts add up to 1
    for 0 input frames. *)
Theorem readImages_no_files_total :
  ∃ images,
    result (readImages []) = Ok images
    ∧ total_delay images = 1
    ∧ total_delay images ≠ Z.of_nat (length (@nil string)).
Proof.
  exists [ImgWithDelay None 1]. split; [reflexivity|].
  split; [reflexivity|]. discriminate.
Qed.

(** C3 (the code at the empty list). For no path at all [readImages]
    emits one run, with a nil image, and [BuildGif] ends in the panic of
    the goroutine that encodes it: neither an error nor a GIF. *)
Theorem BuildGif_no_files sched out fps :
  fair sched →
  readImages [] = ([], Ok [ImgWithDelay None 1])
  ∧ BuildGif sched [] out fps
    = ([EvGifEncode 0],
       Panic "invalid memory address or nil pointer dereference").
Proof.
  intros Hfair. split; [reflexivity|].
  pose proof (Hfair 1%nat) as H1. simpl in H1.
  apply Permutation_singleton_r in H1.
  rewrite BuildGif_unfold. unfold encodeImgPaletted. cbn.
  rewrite H1. reflexivity.
Qed.

(** C5. [gif.Decode] returns a [*image.Paletted] whenever it returns no
    error. Then, when [encodeImgPaletted] succeeds, the result has one
    slot per run; the slot at the index of a run holds a paletted result,
    the paletted image of the round trip of this run with the repetition
    count of the run; and every order of the goroutines gives this same
    result. *)
Theorem encodeImgPaletted_slots sched images imgp :
  (∀ b i', gif_Decode b = inr i' → is_Some (assert_Paletted i')) →
  sched ≡ₚ seq 0 (length images) →
  result (encodeImgPaletted sched images) = Ok imgp →
  length imgp = length images
  ∧ (∀ k im, images !! k = Some im →
       ∃ i' p, round_trip im i'
         ∧ assert_Paletted i' = Some p
         ∧ imgp !! k = Some (Some (PalettedWithDelay p (delay im))))
  ∧ (∀ sched', sched' ≡ₚ seq 0 (length images) →
       result (encodeImgPaletted sched' images) = Ok imgp).
Proof.
  intros Hpal Hs Hr.
  destruct (encodeImgPaletted_lookup _ _ _ Hr) as (Hlen & Hslot & Hclean).
  split; [exact Hlen|]. split.
  - intros k im Him.
    assert (k ∈ sched) as Hin.
    { apply (fair_elem_of _ _ _ Hs). apply lookup_lt_Some in Him. exact Him. }
    destruct (Hclean _ _ Hin Him) as [Hi He].
    destruct (clean_round_trip _ Hi He) as [i' Hrt].
    assert (is_Some (assert_Paletted i')) as [p Hp].
    { destruct Hrt as (i & b & _ & _ & Hd). exact (Hpal _ _ Hd). }
    exists i', p. split; [exact Hrt|]. split; [exact Hp|].
    rewrite (Hslot _ _ Him), (settled_in _ _ _ _ _ Hin Him).
    destruct (round_trip_clean _ _ Hrt) as (_ & _ & ->).
    rewrite Hp. reflexivity.
  - intros sched' Hs'.
    exact (encodeImgPaletted_any_order _ _ _ _ Hs Hs' Hr).
Qed.

(** C6. When the paths before [s] open and decode and [s] fails to open
    or to decode, [BuildGif] returns an error whose message holds [s];
    the run is the run on the list cut after [s], and it consists of the
    openings, decodings, comparisons and closings of the paths up to [s]:
    nothing is encoded and no file is created. *)
Theorem BuildGif_source_error sched pre s post out fps :
  Forall (λ p, ∃ i, loads p i) pre →
  fails s →
  ∃ e,
    result (BuildGif sched (pre ++ s :: post) out fps) = Err e
    ∧ names e s
    ∧ BuildGif sched (pre ++ s :: post) out fps
      = BuildGif sched (pre ++ [s]) out fps
    ∧ Forall (reads_only (pre ++ [s]))
        (trace (BuildGif sched (pre ++ s :: post) out fps)).
Proof.
  intros Hpre [e He]. exists e.
  destruct (readImages_loop_abort s post e pre [] None 1 Hpre He)
    as [Heq Hr].
  assert (readImages (pre ++ s :: post) = readImages (pre ++ [s])) as Hread.
  { unfold readImages. rewrite Heq. reflexivity. }
  assert (result (readImages (pre ++ s :: post)) = Err e) as Hres.
  { unfold readImages. rewrite result_with_deferred_Close. exact Hr. }
  rewrite (BuildGif_read_fails _ _ _ _ _ Hres).
  rewrite Hread in Hres. rewrite (BuildGif_read_fails _ _ _ _ _ Hres).
  rewrite Hread. simpl.
  split; [reflexivity|]. split; [exact (fails_with_names _ _ He)|].
  split; [reflexivity|]. apply readImages_reads_only.
Qed.

(** C7. When the first of N paths gives image [i0] and [imagesEqual]
    judges the image of every later path equal to [i0], [readImages]
    emits the single run of [i0] with count N. *)
Theorem readImages_all_identical s0 i0 files :
  loads s0 i0 →
  Forall (λ s, ∃ i, loads s i ∧ result (imagesEqual i0 i) = Ok true) files →
  Z.of_nat (length (s0 :: files)) <= Int.max_int →
  result (readImages (s0 :: files))
    = Ok [ImgWithDelay (Some i0) (Z.of_nat (length (s0 :: files)))].
Proof.
  intros H0 Hall Hlen. unfold readImages.
  rewrite result_with_deferred_Close.
  rewrite (readImages_loop_loads _ _ _ _ _ _ H0). simpl result.
  unfold turn. rewrite readImages_loop_all_same.
  - simpl length. rewrite Nat2Z.inj_succ. simpl app.
    replace (1 + Z.of_nat (length files))
      with (Z.succ (Z.of_nat (length files))) by lia.
    reflexivity.
  - eapply Forall_impl; [exact Hall|].
    intros s (i & Hi & Heq). exists i. split; [exact Hi|].
    rewrite imagesEqual_result in Heq. injection Heq as ->. reflexivity.
  - simpl length in Hlen. unfold room. lia.
Qed.

(** C8. Every run that [readImages] emits has a repetition count of at
    least 1, for every list of paths (whose length is an [int]). *)
Theorem readImages_delay_ge_1 files images run :
  Z.of_nat (length files) <= Int.max_int →
  result (readImages files) = Ok images →
  run ∈ images →
  1 <= delay run.
Proof.
  intros Hlen Hr Hin. unfold readImages in Hr.
  rewrite result_with_deferred_Close in Hr.
  pose proof (readImages_loop_delay_pos _ _ _ _ _ (room_start _ Hlen)
                (Forall_nil_2 _) Hr) as HF.
  rewrite Forall_forall in HF. exact (HF _ Hin).
Qed.

(** C9. When every run has a round trip and the round trip of run [k]
    gives an image that is not paletted, [encodeImgPaletted] returns
    without an error a list whose slot [k] is nil, and [BuildGif] goes on
    to [writeGif] with it, which panics on the nil entry. *)
Theorem encodeImgPaletted_not_paletted sched files out fps images k im i' :
  fair sched →
  result (readImages files) = Ok images →
  (∀ j im', images !! j = Some im' → ∃ i'', round_trip im' i'') →
  images !! k = Some im →
  round_trip im i' →
  assert_Paletted i' = None →
  ∃ imgp,
    result (encodeImgPaletted (sched (length images)) images) = Ok imgp
    ∧ imgp !! k = Some None
    ∧ result (BuildGif sched files out fps)
      = result (writeGif imgp
                  (Int.quot 100 (if fps =? 0 then 30 else fps)) out)
    ∧ result (BuildGif sched files out fps)
      = Panic "invalid memory address or nil pointer dereference".
Proof.
  intros Hfair Hr Hall Hk Hrt Hcast.
  destruct (run_group_runs images (sched (length images))
              (replicate (length images) None)) as [imgp He].
  { intros j im' _ Him'. destruct (Hall _ _ Him') as [i'' Hrt'].
    destruct (round_trip_clean _ _ Hrt') as (? & ? & _). auto. }
  apply encodeImgPaletted_Ok in He. exists imgp.
  destruct (encodeImgPaletted_lookup _ _ _ He) as (_ & Hslot & _).
  assert (imgp !! k = Some None) as Hnil.
  { rewrite (Hslot _ _ Hk).
    rewrite (settled_in _ _ _ im).
    - destruct (round_trip_clean _ _ Hrt) as (_ & _ & ->).
      rewrite Hcast. reflexivity.
    - apply (fair_elem_of _ _ _ (Hfair _)).
      apply lookup_lt_Some in Hk. exact Hk.
    - exact Hk. }
  rewrite (BuildGif_stages _ _ _ _ _ _ Hr He). simpl result.
  rewrite (writeGif_nil _ _ _ _ Hnil). auto.
Qed.

(** C10. When [fps] exceeds 100 the delay unit of [BuildGif] is
    [100/fps = 0], and every delay of the GIF handed to the encoder is
    0, whatever the repetition counts. *)
Theorem BuildGif_fps_above_100 sched files out fps path g :
  100 < fps →
  EvEncodeAll path g ∈ trace (BuildGif sched files out fps) →
  Int.quot 100 fps = 0 ∧ Forall (λ d, d = 0) (gif_Delay g).
Proof.
  intros Hfps Hin.
  assert (Int.quot 100 fps = 0) as Hq.
  { unfold Int.quot. rewrite Z.quot_small by lia. reflexivity. }
  split; [exact Hq|].
  apply BuildGif_persisted in Hin as (images & imgp & _ & _ & Hloop).
  replace (fps =? 0) with false in Hloop by (symmetry; apply Z.eqb_neq; lia).
  rewrite Hq in Hloop.
  apply writeGif_loop_Ok in Hloop as (ps & _ & _ & ->). simpl.
  apply Forall_forall. intros d (p & -> & _)%list_elem_of_fmap.
  reflexivity.
Qed.
End Properties.


(** ** More on the deduplication stage *)

Section Runs.
Context {W : World}.





Lemma readImages_loop_length files : ∀ images prev d runs,
  result (readImages_loop files images prev d) = Ok runs →
  (length images + 1 <= length runs)%nat
  ∧ (length runs <=
       length images + length files
       + match prev, files with None, _ :: _ => 0 | _, _ => 1 end)%nat.
Proof.
  induction files as [|s files IH]; intros images prev d runs Hr.
  - simpl in Hr. injection Hr as <-. rewrite length_app. simpl.
    destruct prev; lia.
  - destruct (loads_or_fails s) as [[i Hi]|[e He]].
    + rewrite (readImages_loop_loads _ _ _ _ _ _ Hi) in Hr. simpl in Hr.
      unfold turn in Hr. simpl length.
      destruct prev as [p|]; [destruct (same p i)|];
        apply IH in Hr; rewrite ?length_app in Hr; simpl in Hr; lia.
    + rewrite (readImages_loop_fails _ _ _ _ _ _ He) in Hr. discriminate.
Qed.

(** X3. For a list of N paths, N > 0, [readImages] emits at least one run
    and at most N. *)
Theorem readImages_number_of_runs s files runs :
  result (readImages (s :: files)) = Ok runs →
  (1 <= length runs <= length (s :: files))%nat.
Proof.
  intros Hr. unfold readImages in Hr.
  rewrite result_with_deferred_Close in Hr.
  apply readImages_loop_length in Hr. simpl in *. lia.
Qed.



Lemma readImages_loop_img files : ∀ images prev d runs,
  Forall (λ r, is_Some (img r)) images →
  is_Some prev ∨ files ≠ [] →
  result (readImages_loop files images prev d) = Ok runs →
  Forall (λ r, is_Some (img r)) runs.
Proof.
  induction files as [|s files IH]; intros images prev d runs HF Hne Hr.
  - simpl in Hr. injection Hr as <-. apply Forall_app. split; [exact HF|].
    destruct Hne as [Hp|Hf]; [|congruence].
    constructor; [exact Hp|constructor].
  - destruct (loads_or_fails s) as [[i Hi]|[e He]].
    + rewrite (readImages_loop_loads _ _ _ _ _ _ Hi) in Hr. simpl in Hr.
      unfold turn in Hr.
      destruct prev as [p|]; [destruct (same p i)|];
        apply IH in Hr; eauto.
      apply Forall_app. split; [exact HF|]. constructor; [eauto|constructor].
    + rewrite (readImages_loop_fails _ _ _ _ _ _ He) in Hr. discriminate.
Qed.

(** X5. For a list of paths that is not empty, every run that
    [readImages] emits has an image: the nil image appears for the empty
    list only. *)
Theorem readImages_runs_have_images s files runs run :
  result (readImages (s :: files)) = Ok runs →
  run ∈ runs →
  is_Some (img run).
Proof.
  intros Hr Hin. unfold readImages in Hr.
  rewrite result_with_deferred_Close in Hr.
  apply readImages_loop_img in Hr; [|constructor|right; discriminate].
  rewrite Forall_forall in Hr. exact (Hr _ Hin).
Qed.
End Runs.

(** ** What reading does to the files and to the similarity package *)

Section Reading.
Context {W : World}.

Lemma calls_app op t1 t2 :
  calls op (t1 ++ t2) = (calls op t1 + calls op t2)%nat.
Proof.
  unfold calls, oracle_calls. rewrite omap_app, List.filter_app, length_app.
  reflexivity.
Qed.

Lemma calls_imagesEqual a b :
  calls OpIcon (trace (imagesEqual a b)) = 2%nat
  ∧ calls OpPropMetric (trace (imagesEqual a b)) = 1%nat
  ∧ (calls OpEucMetric (trace (imagesEqual a b)) <= 1)%nat.
Proof.
  rewrite imagesEqual_trace. unfold calls. rewrite oracle_calls_map.
  destruct (fgt (propMetric a b) propTolerance); simpl; lia.
Qed.

Lemma file_event_oracle ops : List.filter file_event (map EvOracle ops) = [].
Proof. induction ops as [|op ops IH]; simpl; [reflexivity|exact IH]. Qed.

Lemma opened_oracle ops : omap opened (map EvOracle ops) = [].
Proof. induction ops as [|op ops IH]; simpl; [reflexivity|exact IH]. Qed.

Lemma file_event_Close paths :
  List.filter file_event (map EvClose paths) = map EvClose paths.
Proof.
  induction paths as [|s paths IH]; simpl; [reflexivity|]. rewrite IH.
  reflexivity.
Qed.

Lemma calls_Close op paths : calls op (map EvClose paths) = 0%nat.
Proof.
  unfold calls, oracle_calls.
  induction paths as [|s paths IH]; simpl; [reflexivity|exact IH].
Qed.

Lemma turn_Some files images prev d i :
  ∃ images' q d',
    turn files images prev d i = readImages_loop files images' (Some q) d'.
Proof.
  unfold turn. destruct prev as [p|]; [destruct (same p i)|]; eauto.
Qed.

Lemma compared_facts prev i :
  List.filter file_event (compared prev i) = []
  ∧ omap opened (compared prev i) = []
  ∧ calls OpIcon (compared prev i)
    = (2 * match prev with Some _ => 1 | None => 0 end)%nat
  ∧ calls OpPropMetric (compared prev i)
    = match prev with Some _ => 1 | None => 0 end%nat
  ∧ (calls OpEucMetric (compared prev i)
     <= match prev with Some _ => 1 | None => 0 end)%nat.
Proof.
  destruct prev as [p|]; simpl; [|repeat split; try reflexivity; lia].
  destruct (calls_imagesEqual p i) as (HI & HP & HE).
  rewrite HI, HP. rewrite imagesEqual_trace in *.
  rewrite file_event_oracle, opened_oracle. repeat split. exact HE.
Qed.

(** The paths that load at the head of the list: each is opened and
    decoded in its turn, and each frame but the very first is compared
    once. *)
Lemma readImages_loop_prefix pre : ∀ rest images prev d,
  Forall (λ p, ∃ i, loads p i) pre →
  ∃ images' prev' d',
    List.filter file_event
      (trace (readImages_loop (pre ++ rest) images prev d))
      = flat_map reading pre
        ++ List.filter file_event
             (trace (readImages_loop rest images' prev' d'))
    ∧ omap opened (trace (readImages_loop (pre ++ rest) images prev d))
      = pre ++ omap opened (trace (readImages_loop rest images' prev' d'))
    ∧ calls OpIcon (trace (readImages_loop (pre ++ rest) images prev d))
      = (2 * (length pre - match prev with Some _ => 0 | None => 1 end)
         + calls OpIcon (trace (readImages_loop rest images' prev' d')))%nat
    ∧ calls OpPropMetric
        (trace (readImages_loop (pre ++ rest) images prev d))
      = (length pre - match prev with Some _ => 0 | None => 1 end
         + calls OpPropMetric
             (trace (readImages_loop rest images' prev' d')))%nat
    ∧ (calls OpEucMetric
         (trace (readImages_loop (pre ++ rest) images prev d))
       <= length pre - match prev with Some _ => 0 | None => 1 end
          + calls OpEucMetric
              (trace (readImages_loop rest images' prev' d')))%nat.
Proof.
  induction pre as [|p pre IH]; intros rest images prev d Hpre.
  - exists images, prev, d. simpl. repeat split; try reflexivity.
  - inversion Hpre as [|? ? [i Hi] Hpre']; subst.
    rewrite <- app_comm_cons.
    rewrite (readImages_loop_loads _ _ _ _ _ _ Hi).
    change (match prev with
            | Some p0 => trace (imagesEqual p0 i)
            | None => []
            end) with (compared prev i).
    destruct (turn_Some (pre ++ rest) images prev d i)
      as (images1 & q & d1 & ->).
    destruct (IH rest images1 (Some q) d1 Hpre')
      as (images' & prev' & d' & Hf & Ho & HI & HP & HE).
    destruct (compared_facts prev i) as (Cf & Co & CI & CP & CE).
    exists images', prev', d'.
    change (trace (EvOpen p true :: EvDecode p :: ?t, ?o))
      with (reading p ++ t).
    rewrite !List.filter_app, !omap_app, !calls_app.
    rewrite Cf, Co, CI, CP, Hf, Ho, HI, HP. simpl length.
    split; [reflexivity|]. split; [reflexivity|].
    split; [destruct prev; simpl; lia|].
    split; [destruct prev; simpl; lia|].
    destruct prev; simpl in *; lia.
Qed.

(** X6. When all N paths load, [readImages] compares each frame but the
    first exactly once: it asks N-1 times for the proportion metric,
    computes two icons for each comparison (the icon of the
    representative is computed again each time), and asks at most N-1
    times for the Euclidean distances. *)
Theorem readImages_comparisons files :
  Forall (λ p, ∃ i, loads p i) files →
  calls OpPropMetric (trace (readImages files)) = (length files - 1)%nat
  ∧ calls OpIcon (trace (readImages files)) = (2 * (length files - 1))%nat
  ∧ (calls OpEucMetric (trace (readImages files)) <= length files - 1)%nat.
Proof.
  intros Hall. unfold readImages. rewrite trace_with_deferred_Close.
  rewrite !calls_app, !calls_Close.
  destruct (readImages_loop_prefix files [] [] None 1 Hall)
    as (images' & prev' & d' & _ & _ & HI & HP & HE).
  rewrite app_nil_r in HI, HP, HE.
  change (trace (readImages_loop [] images' prev' d')) with (@nil event)
    in HI, HP, HE.
  change (calls ?op []) with 0%nat in HI, HP, HE. lia.
Qed.

(** X7. When all the paths load, [readImages] opens and decodes them one
    after the other in the order of the list, and closes none of them
    before the last one is decoded: the files are closed when the function
    returns, the last one first. *)
Theorem readImages_files_held_open files :
  Forall (λ p, ∃ i, loads p i) files →
  List.filter file_event (trace (readImages files))
    = flat_map reading files ++ map EvClose (reverse files).
Proof.
  intros Hall. unfold readImages. rewrite trace_with_deferred_Close.
  rewrite List.filter_app, file_event_Close.
  destruct (readImages_loop_prefix files [] [] None 1 Hall)
    as (images' & prev' & d' & Hf & Ho & _).
  rewrite app_nil_r in Hf, Ho.
  change (trace (readImages_loop [] images' prev' d')) with (@nil event)
    in Hf, Ho.
  simpl in Hf, Ho. rewrite app_nil_r in Hf, Ho.
  rewrite Hf, Ho. reflexivity.
Qed.

(** X8. When a path fails after paths that load, the files opened before
    it are closed, the last one first; a file that was opened and failed
    to decode is closed too, and nothing is closed for a path that failed
    to open. *)
Theorem readImages_closes_on_failure pre s post :
  Forall (λ p, ∃ i, loads p i) pre →
  fails s →
  List.filter file_event (trace (readImages (pre ++ s :: post)))
    = flat_map reading pre
      ++ match os_Open s with
         | inl _ => EvOpen s false :: map EvClose (reverse pre)
         | inr _ => reading s ++ map EvClose (reverse (pre ++ [s]))
         end.
Proof.
  intros Hpre [e He]. unfold readImages. rewrite trace_with_deferred_Close.
  rewrite List.filter_app, file_event_Close.
  destruct (readImages_loop_prefix pre (s :: post) [] None 1 Hpre)
    as (images' & prev' & d' & Hf & Ho & _).
  rewrite Hf, Ho, <- app_assoc. f_equal.
  destruct He as [(err & H & ->)|(f & err & H1 & H2 & ->)].
  - rewrite (readImages_loop_open_fails _ _ _ _ _ _ H), H. simpl.
    rewrite app_nil_r. reflexivity.
  - rewrite (readImages_loop_decode_fails _ _ _ _ _ _ _ H1 H2), H1. simpl.
    reflexivity.
Qed.
End Reading.

(** ** More on the encoder and on the assembler *)

Section Stages.
Context {W : World}.

Lemma errOnce_assoc a b c : errOnce (errOnce a b) c = errOnce a (errOnce b c).
Proof. destruct a; reflexivity. Qed.

(** A group none of whose goroutines meets a nil image runs them all and
    keeps the first error. *)
Lemma run_group_first_error images sched : ∀ imgp err,
  (∀ j im, images !! j = Some im → is_Some (img im)) →
  ∃ imgp',
    result (run_group sched images imgp err)
      = Ok (imgp', errOnce err (first_error sched images)).
Proof.
  induction sched as [|c sched IH]; intros imgp err Himg.
  - exists imgp. simpl. destruct err; reflexivity.
  - destruct (images !! c) as [im|] eqn:Him.
    + rewrite (run_group_cons _ _ _ _ _ _ Him).
      destruct (Himg _ _ Him) as [i Hi]. rewrite Hi.
      destruct (IH (store c (slot_of im) imgp)
                  (errOnce err (task_error im)) Himg) as [imgp' ->].
      exists imgp'. rewrite errOnce_assoc. simpl first_error. rewrite Him.
      simpl. destruct (task_error im); reflexivity.
    + rewrite (run_group_skip _ _ _ _ _ Him).
      destruct (IH imgp err Himg) as [imgp' ->].
      exists imgp'. simpl first_error. rewrite Him. reflexivity.
Qed.

Lemma first_error_Some sched images : ∀ e,
  first_error sched images = Some e →
  ∃ pre k post im,
    sched = pre ++ k :: post
    ∧ images !! k = Some im
    ∧ task_error im = Some e
    ∧ ∀ j imj, j ∈ pre → images !! j = Some imj → task_error imj = None.
Proof.
  induction sched as [|c sched IH]; intros e He; [discriminate|].
  simpl in He. destruct (images !! c) as [im|] eqn:Him; simpl in He.
  - destruct (task_error im) as [e'|] eqn:Hte.
    + injection He as <-. exists [], c, sched, im.
      repeat split; try assumption.
      intros j imj Hj. apply not_elem_of_nil in Hj. contradiction.
    + destruct (IH _ He) as (pre & k & post & im' & -> & Hk & Hte' & Hpre).
      exists (c :: pre), k, post, im'. repeat split; try assumption.
      intros j imj [->|Hj]%elem_of_cons Himj; [congruence|eauto].
  - destruct (IH _ He) as (pre & k & post & im' & -> & Hk & Hte' & Hpre).
    exists (c :: pre), k, post, im'. repeat split; try assumption.
    intros j imj [->|Hj]%elem_of_cons Himj; [congruence|eauto].
Qed.

Lemma first_error_is_Some sched images k im e :
  k ∈ sched → images !! k = Some im → task_error im = Some e →
  is_Some (first_error sched images).
Proof.
  induction sched as [|c sched IH]; intros Hk Him Hte.
  - apply not_elem_of_nil in Hk. contradiction.
  - simpl. destruct (images !! c ≫= task_error) as [e'|] eqn:Hc; [eauto|].
    apply elem_of_cons in Hk as [->|Hk]; [|eauto].
    rewrite Him in Hc. simpl in Hc. congruence.
Qed.

Lemma encodeImgPaletted_result sched images :
  (∀ j im, images !! j = Some im → is_Some (img im)) →
  match first_error sched images with
  | Some e => result (encodeImgPaletted sched images) = Err e
  | None => ∃ imgp, result (encodeImgPaletted sched images) = Ok imgp
  end.
Proof.
  intros Himg. unfold encodeImgPaletted. rewrite result_bind.
  destruct (run_group_first_error images sched
              (replicate (length images) None) None Himg) as [imgp' ->].
  simpl. destruct (first_error sched images); eauto.
Qed.

(** X9. When no run has a nil image and the GIF encoding or decoding of
    some run fails, [encodeImgPaletted] returns no list but an error: the
    error of the failing run whose goroutine is the first to end. *)
Theorem encodeImgPaletted_first_failure sched images k im e :
  sched ≡ₚ seq 0 (length images) →
  (∀ j im', images !! j = Some im' → is_Some (img im')) →
  images !! k = Some im →
  task_error im = Some e →
  ∃ pre k' post im' e',
    sched = pre ++ k' :: post
    ∧ images !! k' = Some im'
    ∧ task_error im' = Some e'
    ∧ (∀ j imj, j ∈ pre → images !! j = Some imj → task_error imj = None)
    ∧ result (encodeImgPaletted sched images) = Err e'.
Proof.
  intros Hs Himg Hk Hte.
  assert (k ∈ sched) as Hin.
  { apply (fair_elem_of _ _ _ Hs). apply lookup_lt_Some in Hk. exact Hk. }
  destruct (first_error_is_Some _ _ _ _ _ Hin Hk Hte) as [e' He'].
  destruct (first_error_Some _ _ _ He')
    as (pre & k' & post & im' & Hsched & Hk' & Hte' & Hpre).
  exists pre, k', post, im', e'. repeat split; try assumption.
  pose proof (encodeImgPaletted_result sched images Himg) as Hr.
  rewrite He' in Hr. exact Hr.
Qed.

Lemma readImages_img s files images :
  result (readImages (s :: files)) = Ok images →
  ∀ j im, images !! j = Some im → is_Some (img im).
Proof.
  intros Hr j im Hj. unfold readImages in Hr.
  rewrite result_with_deferred_Close in Hr.
  apply readImages_loop_img in Hr; [|constructor|right; discriminate].
  rewrite Forall_forall in Hr. apply Hr.
  apply list_elem_of_lookup_2 in Hj. exact Hj.
Qed.

Lemma before_writing_stages sched files images :
  Forall (before_writing files)
    (trace (readImages files) ++ trace (encodeImgPaletted sched images)).
Proof.
  apply Forall_app. split.
  - eapply Forall_impl; [apply readImages_reads_only|]. intros e; left; auto.
  - eapply Forall_impl; [apply encodeImgPaletted_encodes_only|].
    intros e; right; auto.
Qed.

(** X10. When the paths are read and the GIF encoding or decoding of a
    run fails, [BuildGif] returns the error of a failing run and has only
    read and encoded: no output file is created. *)
Theorem BuildGif_encode_error sched s files out fps images k im e :
  fair sched →
  result (readImages (s :: files)) = Ok images →
  images !! k = Some im →
  task_error im = Some e →
  ∃ k' im' e',
    images !! k' = Some im'
    ∧ task_error im' = Some e'
    ∧ result (BuildGif sched (s :: files) out fps) = Err e'
    ∧ Forall (before_writing (s :: files))
        (trace (BuildGif sched (s :: files) out fps)).
Proof.
  intros Hfair Hr Hk Hte.
  pose proof (readImages_img _ _ _ Hr) as Himg.
  assert (k ∈ sched (length images)) as Hin.
  { apply (fair_elem_of _ _ _ (Hfair _)). apply lookup_lt_Some in Hk.
    exact Hk. }
  destruct (first_error_is_Some _ _ _ _ _ Hin Hk Hte) as [e' He'].
  destruct (first_error_Some _ _ _ He')
    as (pre & k' & post & im' & _ & Hk' & Hte' & _).
  exists k', im', e'. split; [exact Hk'|]. split; [exact Hte'|].
  pose proof (encodeImgPaletted_result (sched (length images)) images Himg)
    as Henc.
  rewrite He' in Henc.
  rewrite BuildGif_unfold, (bind_Ok _ _ _ Hr), (bind_Err _ _ _ Henc).
  split; [reflexivity|]. apply before_writing_stages.
Qed.

(** *** The assembler *)

Lemma writeGif_eq ps d path :
  writeGif (map Some ps) d path =
    match os_Create path with
    | Some err => ([EvCreate path], Err err)
    | None =>
        ([EvCreate path; EvEncodeAll path (assembled ps d); EvClose path],
         match gif_EncodeAll path (gif_Image (assembled ps d))
                 (gif_Delay (assembled ps d)) with
         | Some err => Err err
         | None => Ok tt
         end)
    end.
Proof.
  unfold writeGif.
  pose proof (writeGif_loop_trace (map Some ps) d (MkGIF [] [])) as Ht.
  pose proof (writeGif_loop_runs ps d (MkGIF [] [])) as Hr.
  destruct (writeGif_loop (map Some ps) d (MkGIF [] [])) as [t o].
  simpl in Ht, Hr. subst t o. simpl.
  destruct (os_Create path); [reflexivity|]. simpl.
  destruct (gif_EncodeAll path _ _); reflexivity.
Qed.

(** A list of slots is free of nil or has a nil somewhere. *)
Lemma slots_nil_or_not (imgp : list (option palettedWithDelay)) :
  (∃ ps, imgp = map Some ps) ∨ (∃ k, imgp !! k = Some None).
Proof.
  induction imgp as [|[p|] imgp IH].
  - left. exists []. reflexivity.
  - destruct IH as [[ps ->]|[k Hk]].
    + left. exists (p :: ps). reflexivity.
    + right. exists (S k). exact Hk.
  - right. exists 0%nat. reflexivity.
Qed.

(** The slots of a successful encoding, entry by entry. *)
Lemma encodeImgPaletted_stored sched images ps :
  result (encodeImgPaletted sched images) = Ok (map Some ps) →
  length ps = length images
  ∧ ∀ k run, images !! k = Some run →
      ∃ i' p, round_trip run i' ∧ assert_Paletted i' = Some p
              ∧ ps !! k = Some (PalettedWithDelay p (delay run)).
Proof.
  intros He.
  destruct (encodeImgPaletted_lookup _ _ _ He) as (Hlen & Hslot & _).
  rewrite length_map in Hlen. split; [exact Hlen|].
  intros k run Hk. specialize (Hslot _ _ Hk).
  rewrite list_lookup_fmap in Hslot.
  destruct (ps !! k) as [p|]; [|discriminate]. simpl in Hslot.
  injection Hslot as Hp. symmetry in Hp.
  apply settled_Some in Hp as (im & Him & Hp).
  rewrite Hk in Him. injection Him as <-.
  unfold slot_of in Hp. destruct (img run) as [i|] eqn:Hi; [|discriminate].
  destruct (gif_Encode i) as [|b] eqn:Hb; [discriminate|].
  destruct (gif_Decode b) as [|i'] eqn:Hi'; [discriminate|].
  destruct (assert_Paletted i') as [q|] eqn:Hq; [|discriminate].
  injection Hp as <-. exists i', q.
  split; [exists i, b; auto|]. split; [exact Hq|reflexivity].
Qed.

(** The run of [BuildGif] once a GIF is handed to the encoder. *)
Lemma BuildGif_handed sched files out fps path g :
  EvEncodeAll path g ∈ trace (BuildGif sched files out fps) →
  ∃ images ps,
    result (readImages files) = Ok images
    ∧ result (encodeImgPaletted (sched (length images)) images)
      = Ok (map Some ps)
    ∧ g = assembled ps (delay_unit fps).
Proof.
  intros Hin.
  apply BuildGif_persisted in Hin as (images & imgp & Hr & He & Hloop).
  apply writeGif_loop_Ok in Hloop as (ps & -> & HI & HD).
  exists images, ps. split; [exact Hr|]. split; [exact He|].
  destruct g as [gi gd]. simpl in HI, HD. subst. reflexivity.
Qed.

(** X11. The GIF that [BuildGif] hands to the encoder has one image and
    one delay per run of [readImages], in the order of the runs: image [k]
    is the paletted image that the round trip of the representative of
    run [k] gave. *)
Theorem BuildGif_frames sched files out fps path g images :
  EvEncodeAll path g ∈ trace (BuildGif sched files out fps) →
  result (readImages files) = Ok images →
  length (gif_Image g) = length images
  ∧ length (gif_Delay g) = length images
  ∧ ∀ k run, images !! k = Some run →
      ∃ i' p, round_trip run i' ∧ assert_Paletted i' = Some p
              ∧ gif_Image g !! k = Some p.
Proof.
  intros Hin Hr.
  apply BuildGif_handed in Hin as (images' & ps & Hr' & He & ->).
  rewrite Hr in Hr'. injection Hr' as <-.
  destruct (encodeImgPaletted_stored _ _ _ He) as (Hlen & Hk).
  unfold assembled. simpl. rewrite !length_map.
  split; [exact Hlen|]. split; [exact Hlen|].
  intros k run Hrun. destruct (Hk _ _ Hrun) as (i' & p & Hrt & Hp & Hps).
  exists i', p. split; [exact Hrt|]. split; [exact Hp|].
  rewrite list_lookup_fmap, Hps. reflexivity.
Qed.

(** X12. [BuildGif] returns nil only when the three stages have gone
    through: its last three events are the creation of the output file,
    the encoding of a GIF into it without error, and the closing of the
    file, and before them it has only read and encoded. *)
Theorem BuildGif_success sched files out fps :
  result (BuildGif sched files out fps) = Ok tt →
  os_Create out = None
  ∧ ∃ t g,
      trace (BuildGif sched files out fps)
        = t ++ [EvCreate out; EvEncodeAll out g; EvClose out]
      ∧ gif_EncodeAll out (gif_Image g) (gif_Delay g) = None
      ∧ Forall (before_writing files) t.
Proof.
  intros Hok. rewrite BuildGif_unfold in *. rewrite result_bind in Hok.
  destruct (result (readImages files)) as [images| |] eqn:Hr;
    try discriminate.
  rewrite result_bind in Hok.
  destruct (result (encodeImgPaletted (sched (length images)) images))
    as [imgp| |] eqn:He; try discriminate.
  rewrite (bind_Ok _ _ _ Hr), (bind_Ok _ _ _ He). simpl trace.
  destruct (slots_nil_or_not imgp) as [[ps ->]|[k Hk]].
  - rewrite writeGif_eq in *. destruct (os_Create out); [discriminate|].
    simpl in Hok. split; [reflexivity|].
    destruct (gif_EncodeAll out _ _) eqn:HA; [discriminate|].
    eexists _, (assembled ps _). rewrite app_assoc.
    split; [reflexivity|]. split; [exact HA|].
    apply before_writing_stages.
  - rewrite (writeGif_nil _ _ _ _ Hk) in Hok. discriminate.
Qed.

(** X13. When the first two stages have gone through and [os.Create]
    fails, [BuildGif] returns the error of [os.Create]; the attempt to
    create the file is its last event, and no GIF is handed to the
    encoder. *)
Theorem BuildGif_create_error sched files out fps images ps err :
  result (readImages files) = Ok images →
  result (encodeImgPaletted (sched (length images)) images)
    = Ok (map Some ps) →
  os_Create out = Some err →
  result (BuildGif sched files out fps) = Err err
  ∧ ∃ t, trace (BuildGif sched files out fps) = t ++ [EvCreate out]
         ∧ Forall (before_writing files) t.
Proof.
  intros Hr He Hc. rewrite (BuildGif_stages _ _ _ _ _ _ Hr He).
  rewrite writeGif_eq, Hc. split; [reflexivity|].
  eexists. rewrite app_assoc.
  split; [reflexivity|]. apply before_writing_stages.
Qed.

(** X14. When the output file is created and [gif.EncodeAll] fails,
    [BuildGif] returns the error of [gif.EncodeAll], and the file has
    been closed. *)
Theorem BuildGif_EncodeAll_error sched files out fps images ps err :
  result (readImages files) = Ok images →
  result (encodeImgPaletted (sched (length images)) images)
    = Ok (map Some ps) →
  os_Create out = None →
  gif_EncodeAll out (gif_Image (assembled ps (delay_unit fps)))
    (gif_Delay (assembled ps (delay_unit fps))) = Some err →
  result (BuildGif sched files out fps) = Err err
  ∧ ∃ t, trace (BuildGif sched files out fps)
           = t ++ [EvCreate out;
                   EvEncodeAll out (assembled ps (delay_unit fps));
                   EvClose out].
Proof.
  intros Hr He Hc HA. rewrite (BuildGif_stages _ _ _ _ _ _ Hr He).
  rewrite writeGif_eq, Hc. fold (delay_unit fps). rewrite HA.
  split; [reflexivity|]. eexists. rewrite app_assoc. reflexivity.
Qed.

(** *** The delays *)

Lemma quot_100_bounds x : x ≠ 0 → -100 <= Z.quot 100 x <= 100.
Proof.
  intros Hx. destruct (Z.lt_ge_cases x 0) as [Hneg|Hpos].
  - replace x with (- (- x)) by lia. rewrite Z.quot_opp_r by lia.
    rewrite Z.quot_div_nonneg by lia.
    assert (0 <= 100 / - x) by (apply Z.div_pos; lia).
    assert (100 / - x <= 100) by (apply Z.div_le_upper_bound; nia).
    lia.
  - rewrite Z.quot_div_nonneg by lia.
    assert (0 <= 100 / x) by (apply Z.div_pos; lia).
    assert (100 / x <= 100) by (apply Z.div_le_upper_bound; nia).
    lia.
Qed.

Lemma delay_unit_eq fps :
  delay_unit fps = Z.quot 100 (if fps =? 0 then 30 else fps).
Proof.
  unfold delay_unit, Int.quot. apply Int_wrap_in_range.
  assert ((if fps =? 0 then 30 else fps) ≠ 0) as Hne.
  { destruct (Z.eqb_spec fps 0); lia. }
  pose proof (quot_100_bounds _ Hne).
  unfold Int.in_range, Int.min_int, Int.max_int, Int.bits. lia.
Qed.

(** The delays of the GIF, as Go computes them. *)
Lemma BuildGif_Delay_wrapped sched files out fps path g images :
  EvEncodeAll path g ∈ trace (BuildGif sched files out fps) →
  result (readImages files) = Ok images →
  gif_Delay g = map (λ run, Int.mul (delay_unit fps) (delay run)) images.
Proof.
  intros Hin Hr.
  apply BuildGif_handed in Hin as (images' & ps & Hr' & He & ->).
  rewrite Hr in Hr'. injection Hr' as <-.
  destruct (encodeImgPaletted_stored _ _ _ He) as (Hlen & Hk).
  unfold assembled. simpl. apply list_eq. intros k.
  rewrite !list_lookup_fmap.
  destruct (images !! k) as [run|] eqn:Hrun.
  - destruct (Hk _ _ Hrun) as (i' & p & _ & _ & ->). reflexivity.
  - apply lookup_ge_None in Hrun. rewrite lookup_ge_None_2 by lia.
    reflexivity.
Qed.

Lemma delay_product_in_range files images run u :
  100 * Z.of_nat (length files) <= Int.max_int →
  result (readImages files) = Ok images →
  run ∈ images →
  -100 <= u <= 100 →
  Int.mul u (delay run) = u * delay run.
Proof.
  intros Hlen Hr Hin Hu.
  assert (Z.of_nat (length files) <= Int.max_int) as Hlen' by lia.
  pose proof (readImages_delay_bounds _ _ _ Hlen' Hr Hin) as Hd.
  unfold Int.mul. apply Int_wrap_in_range.
  unfold Int.in_range, Int.min_int, Int.max_int, Int.bits in *. nia.
Qed.

(** X15. Whatever the value of [fps] (negative too), and as long as 100
    times the number of paths is an [int], the delays of the GIF that
    [BuildGif] hands to the encoder are, run by run, the quotient of 100
    by [fps] truncated towards zero (by 30 when [fps] is 0) times the
    repetition count. *)
Theorem BuildGif_delays sched files out fps path g images :
  100 * Z.of_nat (length files) <= Int.max_int →
  EvEncodeAll path g ∈ trace (BuildGif sched files out fps) →
  result (readImages files) = Ok images →
  gif_Delay g
    = map (λ run, Z.quot 100 (if fps =? 0 then 30 else fps) * delay run)
        images.
Proof.
  intros Hlen Hin Hr.
  rewrite (BuildGif_Delay_wrapped _ _ _ _ _ _ _ Hin Hr).
  apply list_eq. intros k. rewrite !list_lookup_fmap.
  destruct (images !! k) as [run|] eqn:Hrun; simpl; [|reflexivity].
  f_equal. rewrite <- delay_unit_eq.
  apply (delay_product_in_range files images); try assumption.
  - apply list_elem_of_lookup_2 in Hrun. exact Hrun.
  - rewrite delay_unit_eq. apply quot_100_bounds.
    destruct (Z.eqb_spec fps 0); lia.
Qed.

End Stages.

(** ** The directory listing and the command *)

Section ListingFacts.
Context {W : World} {Sh : Shell}.

Lemma listFiles_loop_eq path infos : ∀ files,
  listFiles_loop path infos files
    = files ++ map (λ fi, filepath_Join path (fi_Name fi))
                 (List.filter wanted infos).
Proof.
  induction infos as [|fi infos IH]; intros files; simpl.
  - rewrite app_nil_r. reflexivity.
  - unfold wanted at 1. destruct (fi_IsDir fi); simpl; [apply IH|].
    destruct (String.eqb (filepath_Ext (fi_Name fi)) ".png"
              || String.eqb (filepath_Ext (fi_Name fi)) ".jpg"); simpl.
    + rewrite IH, <- app_assoc. reflexivity.
    + apply IH.
Qed.

Lemma listFiles_lists path infos :
  lists path infos →
  listFiles path =
    ([ShOpenDir path true; ShReaddir path; ShCloseDir path],
     inr (sort_Strings (listFiles_loop path infos []))).
Proof. intros (dir & H1 & H2). unfold listFiles. rewrite H1, H2. reflexivity. Qed.

Lemma listFiles_fails path e :
  listing_fails path e → snd (listFiles path) = inl e.
Proof.
  unfold listFiles. intros [H|(dir & H1 & H2)].
  - rewrite H. reflexivity.
  - rewrite H1, H2. reflexivity.
Qed.

(** X17. When the directory opens and is read, [listFiles] returns, in
    increasing order, the joined paths of exactly those entries that are
    not directories and whose extension is [.png] or [.jpg], whatever the
    order in which the directory gives its entries; and it closes the
    directory. *)
Theorem listFiles_sorted path infos :
  lists path infos →
  ∃ files,
    listFiles path =
      ([ShOpenDir path true; ShReaddir path; ShCloseDir path], inr files)
    ∧ Sorted String.le files
    ∧ files ≡ₚ map (λ fi, filepath_Join path (fi_Name fi))
                 (List.filter wanted infos).
Proof.
  intros Hl. eexists. split; [apply (listFiles_lists _ _ Hl)|].
  unfold sort_Strings. split.
  - apply (Sorted_merge_sort String.le).
  - rewrite merge_sort_Permutation, listFiles_loop_eq. reflexivity.
Qed.

Lemma run_events_app t1 t2 : run_events (t1 ++ t2) = run_events t1 ++ run_events t2.
Proof. unfold run_events. apply omap_app. Qed.

Lemma run_events_ShRun t : run_events (map ShRun t) = t.
Proof.
  unfold run_events. induction t as [|e t IH]; simpl; [reflexivity|].
  f_equal. exact IH.
Qed.

Lemma run_events_listFiles path : run_events (fst (listFiles path)) = [].
Proof.
  unfold listFiles. destruct (os_Open path) as [e|dir]; [reflexivity|].
  destruct (file_Readdir dir); reflexivity.
Qed.

(** X18. When the directory cannot be opened or cannot be read, the
    command of [gen] returns the message with this error and the folder
    emoji, and nothing of [BuildGif] has run: no image is opened and no
    file is created. *)
Theorem gen_listing_error sched path output fps e :
  listing_fails path e →
  snd (gen sched path output fps) = Returns (ResultMsg 0 "📂" (Some e))
  ∧ run_events (fst (gen sched path output fps)) = [].
Proof.
  intros Hf. pose proof (listFiles_fails _ _ Hf) as Hl.
  pose proof (run_events_listFiles path) as Hr.
  unfold gen. destruct (listFiles path) as [t r]. simpl in Hl, Hr. subst r.
  simpl. split; [reflexivity|exact Hr].
Qed.

(** The command of [gen] once the directory is listed. *)
Lemma gen_lists sched path output fps infos :
  lists path infos →
  ∃ files run,
    snd (listFiles path) = inr files
    ∧ run = BuildGif sched files
              (if String.eqb output "" then "out.gif" else output)
              (Int.wrap
                 (fst (strconv_ParseInt
                         (if String.eqb (ReplaceAll_spaces fps) ""
                          then "30" else ReplaceAll_spaces fps))))
    ∧ run_events (fst (gen sched path output fps)) = trace run
    ∧ snd (gen sched path output fps) =
        match result run with
        | Ok _ => Returns (ResultMsg time_Since "🎉" None)
        | Err e => Returns (ResultMsg 0 "🔨" (Some e))
        | Panic msg => Crashes msg
        end.
Proof.
  intros Hl. unfold gen. rewrite (listFiles_lists _ _ Hl).
  eexists _, _. split; [reflexivity|]. split; [reflexivity|]. simpl.
  match goal with |- context [result ?m] => destruct (result m) end;
    simpl; rewrite ?run_events_app, run_events_ShRun, ?app_nil_r;
    split; reflexivity.
Qed.

Lemma lists_or_fails path :
  (∃ infos, lists path infos) ∨ (∃ e, listing_fails path e).
Proof.
  unfold lists, listing_fails.
  destruct (os_Open path) as [e|dir] eqn:H1; [right; eauto|].
  destruct (file_Readdir dir) as [e|infos] eqn:H2; [right|left]; eauto.
Qed.

(** What a run of [BuildGif] that returns nil has done. *)
Lemma BuildGif_Ok_written sched files out fps :
  result (BuildGif sched files out fps) = Ok tt →
  ∃ g, EvEncodeAll out g ∈ trace (BuildGif sched files out fps)
       ∧ os_Create out = None
       ∧ gif_EncodeAll out (gif_Image g) (gif_Delay g) = None.
Proof.
  intros Hok. rewrite BuildGif_unfold in *. rewrite result_bind in Hok.
  destruct (result (readImages files)) as [images| |] eqn:Hr;
    try discriminate.
  rewrite result_bind in Hok.
  destruct (result (encodeImgPaletted (sched (length images)) images))
    as [imgp| |] eqn:He; try discriminate.
  rewrite (bind_Ok _ _ _ Hr), (bind_Ok _ _ _ He). simpl trace.
  destruct (slots_nil_or_not imgp) as [[ps ->]|[k Hk]].
  - rewrite writeGif_eq in *. destruct (os_Create out); [discriminate|].
    simpl in Hok. destruct (gif_EncodeAll out _ _) eqn:HA; [discriminate|].
    exists (assembled ps (Int.quot 100 (if fps =? 0 then 30 else fps))).
    split; [|split; [reflexivity|exact HA]].
    rewrite !elem_of_app. right. right. simpl.
    apply list_elem_of_further, list_elem_of_here.
  - rewrite (writeGif_nil _ _ _ _ Hk) in Hok. discriminate.
Qed.

(** X19. The command of [gen] returns a message without error only when
    [BuildGif] has encoded a GIF without error into the output file,
    which is [out.gif] when the output field is empty; the message then
    carries the party emoji and the elapsed time. *)
Theorem gen_success sched path output fps msg :
  snd (gen sched path output fps) = Returns msg →
  err msg = None →
  msg = ResultMsg time_Since "🎉" None
  ∧ ∃ g,
      EvEncodeAll (if String.eqb output "" then "out.gif" else output) g
        ∈ run_events (fst (gen sched path output fps))
      ∧ gif_EncodeAll (if String.eqb output "" then "out.gif" else output)
          (gif_Image g) (gif_Delay g) = None.
Proof.
  intros Hret Herr.
  destruct (lists_or_fails path) as [[infos Hl]|[e Hf]].
  - destruct (gen_lists sched path output fps infos Hl)
      as (files & run & _ & -> & Hev & Hres).
    rewrite Hev. rewrite Hres in Hret.
    match type of Hret with context [result ?m] =>
      destruct (result m) as [[]|e|] eqn:Hrun end.
    + injection Hret as <-. split; [reflexivity|].
      destruct (BuildGif_Ok_written _ _ _ _ Hrun) as (g & Hin & _ & HA).
      exists g. split; assumption.
    + injection Hret as <-. discriminate.
    + discriminate.
  - pose proof (listFiles_fails _ _ Hf) as Hl. unfold gen in Hret.
    destruct (listFiles path) as [t r]. simpl in Hl. subst r.
    simpl in Hret. injection Hret as <-. discriminate.
Qed.

(** X20. When the directory is listed and an image of the sorted list
    fails to open or to decode after images that load, the command of
    [gen] returns the message with the error that names this image, and
    with the hammer emoji (the folder emoji is for the directory
    only). *)
Theorem gen_source_error sched path output fps infos pre s post :
  lists path infos →
  sort_Strings (listFiles_loop path infos []) = pre ++ s :: post →
  Forall (λ p, ∃ i, loads p i) pre →
  fails s →
  ∃ e,
    snd (gen sched path output fps) = Returns (ResultMsg 0 "🔨" (Some e))
    ∧ names e s.
Proof.
  intros Hl Hfiles Hpre [e He]. exists e.
  split; [|exact (fails_with_names _ _ He)].
  destruct (gen_lists sched path output fps infos Hl)
    as (files & run & Hfs & -> & _ & ->).
  rewrite (listFiles_lists _ _ Hl) in Hfs. simpl in Hfs.
  injection Hfs as <-. rewrite Hfiles.
  destruct (readImages_loop_abort s post e pre [] None 1 Hpre He)
    as [_ Hr].
  assert (result (readImages (pre ++ s :: post)) = Err e) as Hres.
  { unfold readImages. rewrite result_with_deferred_Close. exact Hr. }
  rewrite (BuildGif_read_fails _ _ _ _ _ Hres). reflexivity.
Qed.

(** X21. An fps field that is empty or holds only spaces, and one for
    which [strconv.ParseInt] gives the value 0 (as it does, with an error
    that [gen] drops, for a text that is no number), make the command of
    [gen] do exactly what it does for the field [30]. *)
Theorem gen_fps_default sched path output fps :
  ReplaceAll_spaces fps = ""
  ∨ fst (strconv_ParseInt (ReplaceAll_spaces fps)) = 0 →
  fst (strconv_ParseInt "30") = 30 →
  gen sched path output fps = gen sched path output "30".
Proof.
  intros Hfps H30. unfold gen. destruct (listFiles path) as [t [e|files]];
    [reflexivity|].
  change (ReplaceAll_spaces "30") with "30". simpl (String.eqb "30" "").
  cbv iota. rewrite H30.
  destruct (String.eqb_spec (ReplaceAll_spaces fps) "") as [Hb|Hb].
  - rewrite H30. reflexivity.
  - destruct Hfps as [Hfps|Hfps]; [contradiction|]. rewrite Hfps.
    reflexivity.
Qed.

Lemma open_attempts_app t1 t2 :
  open_attempts (t1 ++ t2) = open_attempts t1 ++ open_attempts t2.
Proof. unfold open_attempts. apply omap_app. Qed.

Lemma open_attempts_none t :
  Forall (λ e, match e with EvOpen _ _ => False | _ => True end) t →
  open_attempts t = [].
Proof.
  unfold open_attempts. induction 1 as [|e t He _ IH]; simpl; [reflexivity|].
  destruct e; try exact IH. contradiction.
Qed.

Lemma readImages_loop_attempts files : ∀ images prev d,
  open_attempts (trace (readImages_loop files images prev d))
    `prefix_of` files.
Proof.
  induction files as [|s files IH]; intros images prev d.
  - apply prefix_nil.
  - destruct (os_Open s) as [e|f] eqn:H1.
    { rewrite (readImages_loop_open_fails _ _ _ _ _ _ H1). simpl.
      apply prefix_cons, prefix_nil. }
    destruct (image_Decode f) as [e|i] eqn:H2.
    { rewrite (readImages_loop_decode_fails _ _ _ _ _ _ _ H1 H2). simpl.
      apply prefix_cons, prefix_nil. }
    assert (loads s i) as Hi by (exists f; auto).
    rewrite (readImages_loop_loads _ _ _ _ _ _ Hi).
    destruct (turn_Some files images prev d i) as (images1 & q & d1 & ->).
    change (trace (EvOpen s true :: EvDecode s :: ?t, ?o))
      with (reading s ++ t).
    rewrite !open_attempts_app. simpl (open_attempts (reading s)).
    rewrite (open_attempts_none (match prev with
                                 | Some p => trace (imagesEqual p i)
                                 | None => []
                                 end)).
    + simpl. apply prefix_cons, IH.
    + destruct prev as [p|]; [|constructor].
      rewrite imagesEqual_trace. apply Forall_forall.
      intros ev (op & -> & _)%list_elem_of_fmap. exact I.
Qed.

Lemma BuildGif_attempts sched files out fps :
  open_attempts (trace (BuildGif sched files out fps)) `prefix_of` files.
Proof.
  assert (open_attempts (trace (readImages files)) `prefix_of` files) as Hread.
  { unfold readImages. rewrite trace_with_deferred_Close, open_attempts_app.
    rewrite (open_attempts_none (map EvClose _)).
    - rewrite app_nil_r. apply readImages_loop_attempts.
    - apply Forall_forall. intros ev (x & -> & _)%list_elem_of_fmap. exact I. }
  rewrite BuildGif_unfold, trace_bind, open_attempts_app.
  rewrite (open_attempts_none (match result (readImages files) with
                               | Ok a => _ | _ => [] end)).
  { rewrite app_nil_r. exact Hread. }
  destruct (result (readImages files)) as [images| |]; [|constructor..].
  rewrite trace_bind. apply Forall_app. split.
  - eapply Forall_impl; [apply encodeImgPaletted_encodes_only|].
    intros [] H; try exact I; contradiction.
  - destruct (result (encodeImgPaletted _ images)) as [imgp| |];
      [|constructor..].
    destruct (slots_nil_or_not imgp) as [[ps ->]|[k Hk]].
    + rewrite writeGif_eq. destruct (os_Create out); repeat constructor.
    + rewrite (writeGif_nil _ _ _ _ Hk). constructor.
Qed.

(** X22. When the directory is listed, the command of [gen] tries to
    open the images in increasing order of their joined paths, whatever
    the order of the entries of the directory: the paths it tries are the
    first paths of the sorted list. *)
Theorem gen_order sched path output fps infos :
  lists path infos →
  ∃ files,
    snd (listFiles path) = inr files
    ∧ Sorted String.le files
    ∧ open_attempts (run_events (fst (gen sched path output fps)))
        `prefix_of` files.
Proof.
  intros Hl.
  destruct (gen_lists sched path output fps infos Hl)
    as (files & run & Hfs & -> & -> & _).
  exists files. split; [exact Hfs|]. split.
  - rewrite (listFiles_lists _ _ Hl) in Hfs. simpl in Hfs.
    injection Hfs as <-. apply (Sorted_merge_sort String.le).
  - apply BuildGif_attempts.
Qed.

(** X27. When the directory is listed and holds no entry that
    [listFiles] keeps, the command of [gen] returns no message: it dies
    of the panic of the goroutine that encodes the nil image of the run
    that [readImages] emits for an empty list. *)
Theorem gen_empty_folder sched path output fps infos :
  fair sched →
  lists path infos →
  List.filter wanted infos = [] →
  snd (gen sched path output fps)
    = Crashes "invalid memory address or nil pointer dereference".
Proof.
  intros Hfair Hl Hnone.
  destruct (gen_lists sched path output fps infos Hl)
    as (files & run & Hfs & -> & _ & ->).
  rewrite (listFiles_lists _ _ Hl) in Hfs. simpl in Hfs.
  injection Hfs as <-. rewrite listFiles_loop_eq, Hnone. simpl map.
  change (sort_Strings ([] ++ [])) with (@nil string).
  pose proof (Hfair 1%nat) as H1. simpl in H1.
  apply Permutation_singleton_r in H1.
  rewrite BuildGif_unfold. unfold encodeImgPaletted. cbn.
  rewrite H1. reflexivity.
Qed.
End ListingFacts.

(** ** The form *)

Section FormFacts.
Context {W : World} {Sh : Shell} {T : Tui}.

Lemma Int_add_in_range a b :
  Int.min_int <= a + b <= Int.max_int → Int.add a b = a + b.
Proof. intros H. apply Int_wrap_in_range. exact H. Qed.

Lemma Int_bounds :
  Int.max_int = 9223372036854775807 ∧ Int.min_int = -9223372036854775808.
Proof. split; reflexivity. Qed.



Lemma nextInput_eq m :
  (0 < length (inputs m))%nat →
  Z.of_nat (length (inputs m)) <= Int.max_int →
  0 <= focused m < Z.of_nat (length (inputs m)) →
  nextInput m =
    Returns (set_focused
               (if focused m + 1 =? Z.of_nat (length (inputs m)) then 0
                else focused m + 1) m).
Proof.
  intros Hpos Hmax Hf. destruct Int_bounds as [Emax Emin].
  unfold nextInput.
  replace (Z.of_nat (length (inputs m)) =? 0) with false
    by (symmetry; apply Z.eqb_neq; lia).
  rewrite Int_add_in_range by lia.
  destruct (Z.eqb_spec (focused m + 1) (Z.of_nat (length (inputs m))))
    as [->|Hne].
  - rewrite Z.rem_same by lia. reflexivity.
  - rewrite Z.rem_small by lia. reflexivity.
Qed.

Lemma prevInput_eq m :
  Z.of_nat (length (inputs m)) <= Int.max_int →
  0 <= focused m < Z.of_nat (length (inputs m)) →
  prevInput m =
    set_focused
      (if focused m =? 0 then Z.of_nat (length (inputs m)) - 1
       else focused m - 1) m.
Proof.
  intros Hmax Hf. destruct Int_bounds as [Emax Emin].
  unfold prevInput. rewrite Int_add_in_range by lia.
  replace (focused m + -1) with (focused m - 1) by lia.
  destruct (Z.eqb_spec (focused m) 0) as [->|Hne].
  - reflexivity.
  - replace (focused m - 1 <? 0) with false
      by (symmetry; apply Z.ltb_ge; lia).
    reflexivity.
Qed.


(** *** Slices *)

Lemma index_ok {A} (l : list A) k :
  0 <= k < Z.of_nat (length l) →
  ∃ a, index l k = Returns a ∧ l !! Z.to_nat k = Some a.
Proof.
  intros Hk. unfold index.
  replace ((0 <=? k) && (k <? Z.of_nat (length l))) with true
    by (symmetry; apply andb_true_iff; split;
        [apply Z.leb_le|apply Z.ltb_lt]; lia).
  destruct (lookup_lt_is_Some_2 l (Z.to_nat k) ltac:(lia)) as [a Ha].
  exists a. rewrite Ha. auto.
Qed.

Lemma index_Returns {A} (l : list A) k a :
  index l k = Returns a →
  0 <= k < Z.of_nat (length l) ∧ l !! Z.to_nat k = Some a.
Proof.
  unfold index.
  destruct ((0 <=? k) && (k <? Z.of_nat (length l))) eqn:Hk; [|discriminate].
  apply andb_true_iff in Hk as [H1%Z.leb_le H2%Z.ltb_lt].
  destruct (l !! Z.to_nat k) as [b|]; [|discriminate].
  intros [= ->]. auto.
Qed.

Lemma update_index_ok {A} (l : list A) k f :
  0 <= k < Z.of_nat (length l) →
  ∃ a, l !! Z.to_nat k = Some a
       ∧ update_index l k f = Returns (<[Z.to_nat k := f a]> l).
Proof.
  intros Hk. destruct (index_ok l k Hk) as (a & Hi & Ha).
  exists a. split; [exact Ha|]. unfold update_index. rewrite Hi. reflexivity.
Qed.

Lemma set_widths_ok w m :
  (3 <= length (inputs m))%nat →
  ∃ l, set_widths w m = Returns (set_inputs l m)
       ∧ length l = length (inputs m)
       ∧ map Width (take 3 l) = [w; Int.quot w 2; Int.quot w 2].
Proof.
  intros Hlen. unfold set_widths, in_path, in_output, in_fps.
  destruct (inputs m) as [|a [|b [|c l]]] eqn:E; simpl in Hlen; try lia.
  destruct (update_index_ok (a :: b :: c :: l) 0 (set_Width w))
    as (a' & Ha & ->); [simpl length; lia|].
  simpl in Ha. injection Ha as <-. simpl.
  destruct (update_index_ok (set_Width w a :: b :: c :: l) 1
              (set_Width (Int.quot w 2)))
    as (b' & Hb & ->); [simpl length; lia|].
  simpl in Hb. injection Hb as <-. simpl.
  destruct (update_index_ok
              (set_Width w a :: set_Width (Int.quot w 2) b :: c :: l) 2
              (set_Width (Int.quot w 2)))
    as (c' & Hc & ->); [simpl length; lia|].
  simpl in Hc. injection Hc as <-. simpl.
  eexists. split; [reflexivity|]. split; reflexivity.
Qed.

Lemma update_inputs_eq mg m :
  ∃ m' cs,
    update_inputs mg m = Returns (m', CmdBatch cs)
    ∧ length (inputs m') = length (inputs m)
    ∧ focused m' = focused m
    ∧ loading m' = loading m ∧ finished m' = finished m
    ∧ m_err m' = m_err m.
Proof.
  unfold update_inputs. destruct (spinner_Update mg (spinner m)) as [sp c].
  eexists _, _. split; [reflexivity|]. simpl. rewrite !length_map.
  repeat split.
Qed.

Lemma refocus_ok mg m :
  0 <= focused m < Z.of_nat (length (inputs m)) →
  ∃ m' cs,
    refocus mg m = Returns (m', CmdBatch cs)
    ∧ length (inputs m') = length (inputs m)
    ∧ focused m' = focused m
    ∧ loading m' = loading m ∧ finished m' = finished m
    ∧ m_err m' = m_err m.
Proof.
  intros Hf. unfold refocus, focus_current, blur_all.
  destruct (update_index_ok (map ti_Blur (inputs m)) (focused m) ti_Focus)
    as (a & _ & Hu).
  { rewrite length_map. exact Hf. }
  simpl. rewrite Hu. simpl.
  destruct (update_inputs_eq mg
              (set_inputs (<[Z.to_nat (focused m) := ti_Focus a]>
                             (map ti_Blur (inputs m)))
                 (set_inputs (map ti_Blur (inputs m)) m)))
    as (m' & cs & -> & Hl & Hfo & H1 & H2 & H3).
  exists m', cs. split; [reflexivity|].
  simpl in *. rewrite length_insert, length_map in Hl. auto.
Qed.

Lemma refocus_cmd mg m m' c :
  refocus mg m = Returns (m', c) → ∃ cs, c = CmdBatch cs.
Proof.
  unfold refocus. destruct (focus_current (blur_all m)) as [m1|]; simpl;
    [|discriminate].
  destruct (update_inputs_eq mg m1) as (m2 & cs & -> & _).
  intros [= _ <-]. eauto.
Qed.

Lemma well_formed_initialModel : well_formed initialModel.
Proof. split; [reflexivity|simpl; lia]. Qed.

Lemma well_formed_range m :
  well_formed m →
  (0 < length (inputs m))%nat
  ∧ Z.of_nat (length (inputs m)) <= Int.max_int
  ∧ 0 <= focused m < Z.of_nat (length (inputs m)).
Proof.
  intros [Hl Hf]. rewrite Hl. destruct Int_bounds as [-> _]. lia.
Qed.

(** A step of [Update] that keeps the inputs and the focus where they
    are keeps the form well formed. *)
Lemma well_formed_keeps m m' :
  well_formed m →
  length (inputs m') = length (inputs m) → focused m' = focused m →
  well_formed m'.
Proof. intros [Hl Hf] E1 E2. split; congruence. Qed.

Ltac form_step :=
  cbn [bindR inputs focused spinner loading m_duration finished m_err
       blur_all set_inputs set_focused fst snd].

(** X24. The initial form is well formed (three inputs, the focus on one
    of them), and from a well-formed form [Update] returns, for every
    message, a well-formed form: no index goes out of range. *)
Theorem Update_well_formed m mg :
  well_formed m →
  well_formed initialModel
  ∧ ∃ m' c, Update m mg = Returns (m', c) ∧ well_formed m'.
Proof.
  intros Hwf. split; [exact well_formed_initialModel|].
  destruct (well_formed_range m Hwf) as (Hpos & Hmax & Hf).
  pose proof Hwf as [Hlen Hfoc].
  assert (∀ m1, well_formed m1 →
            ∃ m' c, refocus mg m1 = Returns (m', c) ∧ well_formed m') as Href.
  { intros m1 Hwf1. destruct (well_formed_range m1 Hwf1) as (_ & _ & Hf1).
    destruct (refocus_ok mg m1 Hf1) as (m' & cs & Hr & Hl & Hfo & _).
    exists m', (CmdBatch cs). split; [exact Hr|].
    exact (well_formed_keeps _ _ Hwf1 Hl Hfo). }
  assert (∃ m' c, bindR (nextInput m) (refocus mg) = Returns (m', c)
                  ∧ well_formed m') as Hnext.
  { rewrite (nextInput_eq m Hpos Hmax Hf). form_step. apply Href.
    split; [exact Hlen|]. form_step.
    destruct (Z.eqb_spec (focused m + 1) (Z.of_nat (length (inputs m))));
      lia. }
  assert (∃ m' c, refocus mg (prevInput m) = Returns (m', c)
                  ∧ well_formed m') as Hprev.
  { apply Href. rewrite (prevInput_eq m Hmax Hf).
    split; [exact Hlen|]. form_step. rewrite Hlen.
    destruct (Z.eqb_spec (focused m) 0); lia. }
  destruct mg as [ty k|w h|r|e|o]; unfold Update; cbv beta iota zeta.
  - destruct ty; cbv beta iota.
    + (* Enter *)
      destruct (loading m) eqn:Hld; [eauto|].
      destruct (finished m
                || match m_err m with Some _ => true | None => false end).
      * destruct (index_ok (inputs m) in_path) as (t & -> & _);
          [unfold in_path; lia|]. form_step.
        destruct (set_widths_ok (Width t) initialModel)
          as (l & -> & Hl & _); [simpl; lia|].
        form_step. eexists _, _. split; [reflexivity|].
        split; [exact Hl|simpl; lia].
      * destruct (Z.eqb_spec (focused m)
                    (Z.of_nat (length (inputs m)) - 1)); [|exact Hnext].
        form_step.
        destruct (index_ok (map ti_Blur (inputs m)) in_path)
          as (tp & -> & _); [rewrite length_map; unfold in_path; lia|].
        destruct (index_ok (map ti_Blur (inputs m)) in_output)
          as (to & -> & _); [rewrite length_map; unfold in_output; lia|].
        destruct (index_ok (map ti_Blur (inputs m)) in_fps)
          as (tf & -> & _); [rewrite length_map; unfold in_fps; lia|].
        form_step. eexists _, _. split; [reflexivity|].
        split; [form_step; rewrite length_map; exact Hlen|exact Hfoc].
    + eauto.
    + eauto.
    + destruct (busy m); [eauto|exact Hprev].
    + destruct (busy m); [eauto|exact Hprev].
    + destruct (busy m); [eauto|exact Hnext].
    + destruct (busy m); [eauto|exact Hnext].
    + apply Href. exact Hwf.
  - destruct (set_widths_ok w m) as (l & -> & Hl & _); [lia|]. form_step.
    destruct (update_inputs_eq (WindowSizeMsg w h) (set_inputs l m))
      as (m' & cs & -> & Hl' & Hfo & _).
    eexists _, _. split; [reflexivity|].
    apply (well_formed_keeps m); [exact Hwf|simpl in *; lia|exact Hfo].
  - form_step.
    destruct (update_index_ok (inputs m) in_path ti_Focus)
      as (a & _ & ->); [unfold in_path; lia|].
    form_step. destruct (err r); eexists _, _; (split; [reflexivity|]);
      (split; [form_step; rewrite length_insert; exact Hlen|exact Hfoc]).
  - eexists _, _. split; [reflexivity|]. exact Hwf.
  - destruct (update_inputs_eq (OtherMsg o) m)
      as (m' & cs & -> & Hl' & Hfo & _).
    eexists _, _. split; [reflexivity|].
    exact (well_formed_keeps _ _ Hwf Hl' Hfo).
Qed.

(** X25. [Update] returns the command of [gen] only for the key Enter,
    on a form where no conversion is running or shown and whose focus is
    on the last input; the form is then loading, and the command carries
    the values of the first three inputs. *)
Theorem Update_gen m mg m' p o f :
  Update m mg = Returns (m', CmdGen p o f) →
  (∃ k, mg = KeyMsg KeyEnter k)
  ∧ idle m
  ∧ focused m = Z.of_nat (length (inputs m)) - 1
  ∧ loading m' = true
  ∧ ∃ tp to tf,
      map ti_Blur (inputs m) !! 0%nat = Some tp
      ∧ map ti_Blur (inputs m) !! 1%nat = Some to
      ∧ map ti_Blur (inputs m) !! 2%nat = Some tf
      ∧ p = ti_Value tp ∧ o = ti_Value to ∧ f = ti_Value tf.
Proof.
  assert (∀ m1 mg1, refocus mg1 m1 ≠ Returns (m', CmdGen p o f)) as Href.
  { intros m1 mg1 H. apply refocus_cmd in H as [cs H]. discriminate. }
  assert (∀ m1 mg1,
            bindR (nextInput m1) (refocus mg1) ≠ Returns (m', CmdGen p o f))
    as Hnext.
  { intros m1 mg1. destruct (nextInput m1); form_step;
      [apply Href|discriminate]. }
  assert (∀ m1 mg1, update_inputs mg1 m1 ≠ Returns (m', CmdGen p o f)) as Hupd.
  { intros m1 mg1 H.
    destruct (update_inputs_eq mg1 m1) as (m2 & cs & E & _).
    rewrite E in H. discriminate. }
  destruct mg as [ty k|w h|r|e|o0]; unfold Update; cbv beta iota zeta.
  - destruct ty; cbv beta iota; try discriminate;
      try (destruct (busy m); [discriminate|]; intros H; exfalso;
           revert H; first [apply Href|apply Hnext]);
      try (intros H; exfalso; revert H; apply Href).
    destruct (loading m) eqn:Hld; [discriminate|].
    destruct (finished m) eqn:Hfin; cbn [orb].
    { destruct (index (inputs m) in_path); form_step; [|discriminate].
      destruct (set_widths _ initialModel); form_step; discriminate. }
    destruct (m_err m) eqn:Herr.
    { destruct (index (inputs m) in_path); form_step; [|discriminate].
      destruct (set_widths _ initialModel); form_step; discriminate. }
    destruct (Z.eqb_spec (focused m) (Z.of_nat (length (inputs m)) - 1))
      as [Hlast|Hnl]; [|intros H; exfalso; revert H; apply Hnext].
    form_step.
    destruct (index (map ti_Blur (inputs m)) in_path) as [tp|] eqn:H0;
      form_step; [|discriminate].
    destruct (index (map ti_Blur (inputs m)) in_output) as [to|] eqn:H1;
      form_step; [|discriminate].
    destruct (index (map ti_Blur (inputs m)) in_fps) as [tf|] eqn:H2;
      form_step; [|discriminate].
    intros [= <- <- <- <-].
    apply index_Returns in H0 as [_ H0], H1 as [_ H1], H2 as [_ H2].
    split; [eauto|]. split; [repeat split; assumption|].
    split; [exact Hlast|]. split; [reflexivity|].
    exists tp, to, tf. auto 10.
  - destruct (set_widths w m); form_step; [|discriminate].
    intros H; exfalso; revert H; apply Hupd.
  - form_step.
    destruct (update_index (inputs m) in_path ti_Focus); form_step;
      [|discriminate].
    destruct (err r); discriminate.
  - discriminate.
  - intros H; exfalso; revert H; apply Hupd.
Qed.

(** X26. Enter on a form that shows the end of a conversion (finished or
    failed, and not loading) brings back the initial form: the flags are
    cleared, the error is gone, the focus is on the first input, and the
    inputs are those of [initialModel] with the width of the old first
    input for the first and half of it for the two others; the spinner is
    kept and no command is returned. *)
Theorem Update_reset m k t :
  loading m = false →
  finished m = true ∨ is_Some (m_err m) →
  inputs m !! 0%nat = Some t →
  ∃ m',
    Update m (KeyMsg KeyEnter k) = Returns (m', CmdNil)
    ∧ idle m' ∧ focused m' = 0 ∧ spinner m' = spinner m
    ∧ inputs m' =
        zip_with set_Width
          [Width t; Int.quot (Width t) 2; Int.quot (Width t) 2]
          (inputs initialModel).
Proof.
  intros Hld Hend Ht. unfold Update. cbv beta iota zeta. rewrite Hld.
  replace (finished m || match m_err m with Some _ => true | None => false end)
    with true.
  2:{ destruct Hend as [->|[e ->]]; [reflexivity|].
      destruct (finished m); reflexivity. }
  destruct (index_ok (inputs m) in_path) as (t' & -> & Ht').
  { apply lookup_lt_Some in Ht. unfold in_path. lia. }
  change (Z.to_nat in_path) with 0%nat in Ht'. rewrite Ht in Ht'.
  injection Ht' as <-. form_step.
  eexists. split; [reflexivity|]. repeat split.
Qed.
End FormFacts.
(** ** The theorems at work in the small world *)

(** An event is in a trace when it is the one at position [n]. *)
Ltac in_trace n := apply (list_elem_of_lookup_2 _ n); reflexivity.

Lemma fair_in_order : fair Toy.in_order.
Proof. intros n. reflexivity. Defined.

(** [A, A, B] at 25 frames per second: two frames are stored, A with
    delay 8 and B with delay 4. *)
Lemma BuildGif_AAB :
  result (BuildGif (W:=Toy.world) Toy.in_order Toy.AAB "out.gif" 25) = Ok tt
  ∧ trace (BuildGif (W:=Toy.world) Toy.in_order Toy.AAB "out.gif" 25)
      !! 21%nat
    = Some (EvEncodeAll "out.gif" (Toy.animation ["A"; "B"]%char [8; 4])).
Proof. split; reflexivity. Qed.



(** No path at all, with the goroutines in starting order. *)
Lemma BuildGif_no_files_example :
  readImages (W:=Toy.world) [] = ([], Ok [ImgWithDelay None 1])
  ∧ BuildGif (W:=Toy.world) Toy.in_order [] "out.gif" 25
    = ([EvGifEncode 0],
       Panic "invalid memory address or nil pointer dereference").
Proof.
  apply (BuildGif_no_files (W:=Toy.world) Toy.in_order "out.gif" 25).
  exact fair_in_order.
Defined.

(** The runs of [A, A, B], encoded last run first, where every decoded
    image is paletted. *)
Lemma encodeImgPaletted_slots_example :
  length [Some (Desk.stored "A" 2); Some (Desk.stored "B" 1)]
    = length [Desk.run "A" 2; Desk.run "B" 1]
  ∧ (∀ k im, [Desk.run "A" 2; Desk.run "B" 1] !! k = Some im →
       ∃ i' p, round_trip im i'
         ∧ assert_Paletted (World:=Desk.world) i' = Some p
         ∧ [Some (Desk.stored "A" 2); Some (Desk.stored "B" 1)] !! k
           = Some (Some (PalettedWithDelay p (delay im))))
  ∧ (∀ sched', sched' ≡ₚ seq 0 (length [Desk.run "A" 2; Desk.run "B" 1]) →
       result (encodeImgPaletted (W:=Desk.world) sched'
                 [Desk.run "A" 2; Desk.run "B" 1])
       = Ok [Some (Desk.stored "A" 2); Some (Desk.stored "B" 1)]).
Proof.
  apply (encodeImgPaletted_slots (W:=Desk.world) [1; 0]%nat
           [Desk.run "A" 2; Desk.run "B" 1]).
  - intros b i' _. eexists. reflexivity.
  - simpl. apply Permutation_swap.
  - reflexivity.
Defined.

(** [broken.png] in the middle of the list. *)
Lemma BuildGif_source_error_example :
  ∃ e,
    result (BuildGif (W:=Toy.world) Toy.in_order
              (["A1.png"] ++ "broken.png" :: ["B.png"]) "out.gif" 25) = Err e
    ∧ names e "broken.png"
    ∧ BuildGif (W:=Toy.world) Toy.in_order
        (["A1.png"] ++ "broken.png" :: ["B.png"]) "out.gif" 25
      = BuildGif (W:=Toy.world) Toy.in_order
          (["A1.png"] ++ ["broken.png"]) "out.gif" 25
    ∧ Forall (reads_only (["A1.png"] ++ ["broken.png"]))
        (trace (BuildGif (W:=Toy.world) Toy.in_order
                  (["A1.png"] ++ "broken.png" :: ["B.png"]) "out.gif" 25)).
Proof.
  apply (BuildGif_source_error (W:=Toy.world) Toy.in_order
           ["A1.png"] "broken.png" ["B.png"] "out.gif" 25).
  - repeat constructor. exists "A"%char, "A1.png". split; reflexivity.
  - exists (Errorf "failed to decode image" "broken.png"
              (ExtError "image: unknown format")).
    right. exists "broken.png", (ExtError "image: unknown format").
    repeat split.
Defined.

(** Three files of picture [A]. *)
Lemma readImages_all_identical_example :
  result (readImages (W:=Toy.world) ["A1.png"; "A2.png"; "A3.png"])
    = Ok [Toy.run "A" (Z.of_nat (length ["A1.png"; "A2.png"; "A3.png"]))].
Proof.
  apply (readImages_all_identical (W:=Toy.world) "A1.png" "A"%char
           ["A2.png"; "A3.png"]).
  - exists "A1.png". split; reflexivity.
  - repeat constructor.
    + exists "A"%char. split; [exists "A2.png"; split|]; reflexivity.
    + exists "A"%char. split; [exists "A3.png"; split|]; reflexivity.
  - vm_compute. discriminate.
Defined.

(** The run of picture [B] in [A, A, B]. *)
Lemma readImages_delay_ge_1_example : 1 <= delay (Toy.run "B" 1).
Proof.
  apply (readImages_delay_ge_1 (W:=Toy.world) Toy.AAB
           [Toy.run "A" 2; Toy.run "B" 1] (Toy.run "B" 1)).
  - vm_compute. discriminate.
  - reflexivity.
  - apply list_elem_of_further, list_elem_of_here.
Defined.

(** [x.png] between two other pictures. *)
Lemma encodeImgPaletted_not_paletted_example :
  ∃ imgp,
    result (encodeImgPaletted (W:=Toy.world) (Toy.in_order 3)
              [Toy.run "A" 1; Toy.run "x" 1; Toy.run "B" 1]) = Ok imgp
    ∧ imgp !! 1%nat = Some None
    ∧ result (BuildGif (W:=Toy.world) Toy.in_order Toy.AxB "out.gif" 25)
      = result (writeGif imgp (Int.quot 100 (if 25 =? 0 then 30 else 25))
                  "out.gif")
    ∧ result (BuildGif (W:=Toy.world) Toy.in_order Toy.AxB "out.gif" 25)
      = Panic "invalid memory address or nil pointer dereference".
Proof.
  apply (encodeImgPaletted_not_paletted (W:=Toy.world) Toy.in_order Toy.AxB
           "out.gif" 25 [Toy.run "A" 1; Toy.run "x" 1; Toy.run "B" 1]
           1 (Toy.run "x" 1) "x"%char).
  - exact fair_in_order.
  - reflexivity.
  - intros [|[|[|j]]] im' Him'; try discriminate;
      injection Him' as <-; eexists; eexists; eexists;
      (split; [reflexivity|split; reflexivity]).
  - reflexivity.
  - exists "x"%char, "x"%char. repeat split.
  - reflexivity.
Defined.

(** [A, A, B] at 200 frames per second. *)
Lemma BuildGif_fps_above_100_example :
  Int.quot 100 200 = 0
  ∧ Forall (λ d, d = 0) (gif_Delay (Toy.animation ["A"; "B"]%char [0; 0])).
Proof.
  apply (BuildGif_fps_above_100 (W:=Toy.world) Toy.in_order Toy.AAB
           "out.gif" 200 "out.gif" (Toy.animation ["A"; "B"]%char [0; 0])).
  - lia.
  - in_trace 21%nat.
Defined.

(** ** The further theorems at work in the two small worlds *)

(** Paths of a small world that load. *)
Ltac all_load :=
  lazymatch goal with
  | |- Forall2 _ [] [] => constructor
  | |- Forall2 _ (_ :: _) (_ :: _) =>
      constructor; [eexists; split; reflexivity | all_load]
  | |- Forall _ [] => constructor
  | |- Forall _ (_ :: _) =>
      constructor; [eexists; eexists; split; reflexivity | all_load]
  end.

Ltac fits := vm_compute; discriminate.

Lemma readImages_total_example :
  total_delay [Toy.run "A" 2; Toy.run "B" 1]
    = Z.of_nat (length ("A1.png" :: ["A2.png"; "B.png"])).
Proof.
  apply (readImages_total (W:=Toy.world) "A1.png" ["A2.png"; "B.png"]).
  - fits.
  - reflexivity.
Defined.


Lemma readImages_number_of_runs_example :
  (1 <= length [Toy.run "A" 2; Toy.run "B" 1]
   <= length ("A1.png" :: ["A2.png"; "B.png"]))%nat.
Proof.
  apply (readImages_number_of_runs (W:=Toy.world) "A1.png"
           ["A2.png"; "B.png"]).
  reflexivity.
Defined.


Lemma readImages_runs_have_images_example : is_Some (img (Toy.run "B" 1)).
Proof.
  apply (readImages_runs_have_images (W:=Toy.world) "A1.png"
           ["A2.png"; "B.png"] [Toy.run "A" 2; Toy.run "B" 1]).
  - reflexivity.
  - apply list_elem_of_further, list_elem_of_here.
Defined.

Lemma readImages_comparisons_example :
  calls OpPropMetric (trace (readImages (W:=Toy.world) Toy.AAB))
    = (length Toy.AAB - 1)%nat
  ∧ calls OpIcon (trace (readImages (W:=Toy.world) Toy.AAB))
    = (2 * (length Toy.AAB - 1))%nat
  ∧ (calls OpEucMetric (trace (readImages (W:=Toy.world) Toy.AAB))
     <= length Toy.AAB - 1)%nat.
Proof.
  apply (readImages_comparisons (W:=Toy.world) Toy.AAB).
  unfold Toy.AAB. all_load.
Defined.

Lemma readImages_files_held_open_example :
  List.filter file_event (trace (readImages (W:=Toy.world) Toy.AAB))
    = flat_map reading Toy.AAB ++ map EvClose (reverse Toy.AAB).
Proof.
  apply (readImages_files_held_open (W:=Toy.world) Toy.AAB).
  unfold Toy.AAB. all_load.
Defined.

Lemma readImages_closes_on_failure_example :
  List.filter file_event
    (trace (readImages (W:=Toy.world)
              (["A1.png"] ++ "broken.png" :: ["B.png"])))
    = flat_map reading ["A1.png"]
      ++ match os_Open (World:=Toy.world) "broken.png" with
         | inl _ => EvOpen "broken.png" false :: map EvClose (reverse ["A1.png"])
         | inr _ =>
             reading "broken.png"
             ++ map EvClose (reverse (["A1.png"] ++ ["broken.png"]))
         end.
Proof.
  apply (readImages_closes_on_failure (W:=Toy.world) ["A1.png"]
           "broken.png" ["B.png"]).
  - all_load.
  - exists (Errorf "failed to decode image" "broken.png"
              (ExtError "image: unknown format")).
    right. exists "broken.png", (ExtError "image: unknown format").
    repeat split.
Defined.

(** The encoder refuses picture [e]. *)
Lemma encodeImgPaletted_first_failure_example :
  ∃ pre k' post im' e',
    Toy.in_order 3 = pre ++ k' :: post
    ∧ [Toy.run "A" 1; Toy.run "e" 1; Toy.run "B" 1] !! k' = Some im'
    ∧ task_error im' = Some e'
    ∧ (∀ j imj, j ∈ pre →
         [Toy.run "A" 1; Toy.run "e" 1; Toy.run "B" 1] !! j = Some imj →
         task_error imj = None)
    ∧ result (encodeImgPaletted (W:=Toy.world) (Toy.in_order 3)
                [Toy.run "A" 1; Toy.run "e" 1; Toy.run "B" 1]) = Err e'.
Proof.
  apply (encodeImgPaletted_first_failure (W:=Toy.world) (Toy.in_order 3)
           [Toy.run "A" 1; Toy.run "e" 1; Toy.run "B" 1] 1 (Toy.run "e" 1)
           (ExtError "gif: image is too large to encode")).
  - reflexivity.
  - intros [|[|[|j]]] im' Him'; try discriminate;
      injection Him' as <-; eexists; reflexivity.
  - reflexivity.
  - reflexivity.
Defined.

Lemma BuildGif_encode_error_example :
  ∃ k' im' e',
    [Toy.run "A" 1; Toy.run "e" 1; Toy.run "B" 1] !! k' = Some im'
    ∧ task_error im' = Some e'
    ∧ result (BuildGif (W:=Toy.world) Toy.in_order
                ("A1.png" :: ["e.png"; "B.png"]) "out.gif" 25) = Err e'
    ∧ Forall (before_writing ("A1.png" :: ["e.png"; "B.png"]))
        (trace (BuildGif (W:=Toy.world) Toy.in_order
                  ("A1.png" :: ["e.png"; "B.png"]) "out.gif" 25)).
Proof.
  apply (BuildGif_encode_error (W:=Toy.world) Toy.in_order "A1.png"
           ["e.png"; "B.png"] "out.gif" 25
           [Toy.run "A" 1; Toy.run "e" 1; Toy.run "B" 1] 1 (Toy.run "e" 1)
           (ExtError "gif: image is too large to encode")).
  - exact fair_in_order.
  - reflexivity.
  - reflexivity.
  - reflexivity.
Defined.

Lemma BuildGif_frames_example :
  length (gif_Image (Toy.animation ["A"; "B"]%char [8; 4]))
    = length [Toy.run "A" 2; Toy.run "B" 1]
  ∧ length (gif_Delay (Toy.animation ["A"; "B"]%char [8; 4]))
    = length [Toy.run "A" 2; Toy.run "B" 1]
  ∧ ∀ k run, [Toy.run "A" 2; Toy.run "B" 1] !! k = Some run →
      ∃ i' p, round_trip run i' ∧ assert_Paletted i' = Some p
              ∧ gif_Image (Toy.animation ["A"; "B"]%char [8; 4]) !! k
                = Some p.
Proof.
  apply (BuildGif_frames (W:=Toy.world) Toy.in_order Toy.AAB "out.gif" 25
           "out.gif").
  - in_trace 21%nat.
  - reflexivity.
Defined.

Lemma BuildGif_success_example :
  os_Create (World:=Toy.world) "out.gif" = None
  ∧ ∃ t g,
      trace (BuildGif (W:=Toy.world) Toy.in_order Toy.AAB "out.gif" 25)
        = t ++ [EvCreate "out.gif"; EvEncodeAll "out.gif" g;
                EvClose "out.gif"]
      ∧ gif_EncodeAll (World:=Toy.world) "out.gif" (gif_Image g)
          (gif_Delay g) = None
      ∧ Forall (before_writing Toy.AAB) t.
Proof.
  apply (BuildGif_success (W:=Toy.world) Toy.in_order Toy.AAB "out.gif" 25).
  reflexivity.
Defined.

(** No file can be created in the folder [locked]. *)
Lemma BuildGif_create_error_example :
  result (BuildGif (W:=Desk.world) Toy.in_order Desk.AB "locked/out.gif" 25)
    = Err (ExtError "open locked/out.gif: permission denied")
  ∧ ∃ t,
      trace (BuildGif (W:=Desk.world) Toy.in_order Desk.AB "locked/out.gif"
               25)
        = t ++ [EvCreate "locked/out.gif"]
      ∧ Forall (before_writing Desk.AB) t.
Proof.
  apply (BuildGif_create_error (W:=Desk.world) Toy.in_order Desk.AB
           "locked/out.gif" 25 [Desk.run "A" 1; Desk.run "B" 1]
           [Desk.stored "A" 1; Desk.stored "B" 1]).
  - reflexivity.
  - reflexivity.
  - reflexivity.
Defined.

(** A GIF does not fit into the folder [full]. *)
Lemma BuildGif_EncodeAll_error_example :
  result (BuildGif (W:=Desk.world) Toy.in_order Desk.AB "full/out.gif" 25)
    = Err (ExtError "write full/out.gif: no space left on device")
  ∧ ∃ t,
      trace (BuildGif (W:=Desk.world) Toy.in_order Desk.AB "full/out.gif" 25)
        = t ++ [EvCreate "full/out.gif";
                EvEncodeAll "full/out.gif"
                  (assembled [Desk.stored "A" 1; Desk.stored "B" 1]
                     (delay_unit 25));
                EvClose "full/out.gif"].
Proof.
  apply (BuildGif_EncodeAll_error (W:=Desk.world) Toy.in_order Desk.AB
           "full/out.gif" 25 [Desk.run "A" 1; Desk.run "B" 1]
           [Desk.stored "A" 1; Desk.stored "B" 1]).
  - reflexivity.
  - reflexivity.
  - reflexivity.
  - reflexivity.
Defined.

(** [A, A, B] at -7 frames per second. *)
Lemma BuildGif_delays_example :
  gif_Delay (Toy.animation ["A"; "B"]%char [-28; -14])
    = map (λ run, Z.quot 100 (if -7 =? 0 then 30 else -7) * delay run)
        [Toy.run "A" 2; Toy.run "B" 1].
Proof.
  apply (BuildGif_delays (W:=Toy.world) Toy.in_order Toy.AAB "out.gif" (-7)
           "out.gif").
  - fits.
  - in_trace 21%nat.
  - reflexivity.
Defined.


(** The folder [frames]. *)
Lemma lists_frames :
  lists (W:=Desk.world) (Sh:=Desk.shell) "frames"
    [("B.png", false); ("A2.png", false); ("notes.txt", false);
     ("old", true); ("A1.png", false)].
Proof. exists "frames". split; reflexivity. Defined.

Lemma listFiles_sorted_example :
  ∃ files,
    listFiles (W:=Desk.world) (Sh:=Desk.shell) "frames" =
      ([ShOpenDir "frames" true; ShReaddir "frames"; ShCloseDir "frames"],
       inr files)
    ∧ Sorted String.le files
    ∧ files ≡ₚ
        map (λ fi, filepath_Join (Shell:=Desk.shell) "frames" (fi_Name fi))
          (List.filter (wanted (Sh:=Desk.shell))
             [("B.png", false); ("A2.png", false); ("notes.txt", false);
              ("old", true); ("A1.png", false)]).
Proof.
  apply (listFiles_sorted (W:=Desk.world) (Sh:=Desk.shell) "frames").
  exact lists_frames.
Defined.

(** The folder [locked] opens and cannot be read. *)
Lemma gen_listing_error_example :
  snd (gen (W:=Desk.world) (Sh:=Desk.shell) Toy.in_order "locked" "" "25")
    = Returns
        (ResultMsg 0 "📂"
           (Some (ExtError "readdirent locked: permission denied")))
  ∧ run_events
      (fst (gen (W:=Desk.world) (Sh:=Desk.shell) Toy.in_order "locked" ""
              "25")) = [].
Proof.
  apply (gen_listing_error (W:=Desk.world) (Sh:=Desk.shell)).
  right. exists "locked". split; reflexivity.
Defined.

Lemma gen_success_example :
  ResultMsg 1500000000 "🎉" None
    = ResultMsg (time_Since (Shell:=Desk.shell)) "🎉" None
  ∧ ∃ g,
      EvEncodeAll (W:=Desk.world) "out.gif" g
        ∈ run_events
            (fst (gen (W:=Desk.world) (Sh:=Desk.shell) Toy.in_order "frames"
                    "" "25"))
      ∧ gif_EncodeAll (World:=Desk.world) "out.gif" (gif_Image g)
          (gif_Delay g) = None.
Proof.
  apply (gen_success (W:=Desk.world) (Sh:=Desk.shell) Toy.in_order "frames"
           "" "25" (ResultMsg 1500000000 "🎉" None)).
  - reflexivity.
  - reflexivity.
Defined.

(** The folder [mixed]: [bad.png] comes after [A1.png] in the sorted
    list. *)
Lemma gen_source_error_example :
  ∃ e,
    snd (gen (W:=Desk.world) (Sh:=Desk.shell) Toy.in_order "mixed" "" "25")
      = Returns (ResultMsg 0 "🔨" (Some e))
    ∧ names e "mixed/bad.png".
Proof.
  apply (gen_source_error (W:=Desk.world) (Sh:=Desk.shell) Toy.in_order
           "mixed" "" "25" [("bad.png", false); ("A1.png", false)]
           ["mixed/A1.png"] "mixed/bad.png" []).
  - exists "mixed". split; reflexivity.
  - reflexivity.
  - all_load.
  - exists (Errorf "failed to decode image" "mixed/bad.png"
              (ExtError "image: unknown format")).
    right. exists "mixed/bad.png", (ExtError "image: unknown format").
    repeat split.
Defined.

(** The fps field [abc]. *)
Lemma gen_fps_default_example :
  gen (W:=Desk.world) (Sh:=Desk.shell) Toy.in_order "frames" "" "abc"
    = gen (W:=Desk.world) (Sh:=Desk.shell) Toy.in_order "frames" "" "30".
Proof.
  apply (gen_fps_default (W:=Desk.world) (Sh:=Desk.shell)).
  - right. reflexivity.
  - reflexivity.
Defined.

Lemma gen_order_example :
  ∃ files,
    snd (listFiles (W:=Desk.world) (Sh:=Desk.shell) "frames") = inr files
    ∧ Sorted String.le files
    ∧ open_attempts
        (run_events
           (fst (gen (W:=Desk.world) (Sh:=Desk.shell) Toy.in_order "frames"
                   "" "25")))
        `prefix_of` files.
Proof.
  apply (gen_order (W:=Desk.world) (Sh:=Desk.shell) Toy.in_order "frames" ""
           "25"
           [("B.png", false); ("A2.png", false); ("notes.txt", false);
            ("old", true); ("A1.png", false)]).
  exact lists_frames.
Defined.

(** A folder without images. *)
Lemma gen_empty_folder_example :
  snd (gen (W:=Desk.world) (Sh:=Desk.shell) Toy.in_order "empty" "" "25")
    = Crashes "invalid memory address or nil pointer dereference".
Proof.
  apply (gen_empty_folder (W:=Desk.world) (Sh:=Desk.shell) Toy.in_order
           "empty" "" "25" []).
  - exact fair_in_order.
  - exists "empty". split; reflexivity.
  - reflexivity.
Defined.


(** The key Tab on the initial form. *)
Lemma Update_well_formed_example :
  well_formed (initialModel (W:=Desk.world) (Sh:=Desk.shell) (T:=Desk.tui))
  ∧ ∃ m' c,
      Update (W:=Desk.world) (Sh:=Desk.shell) (T:=Desk.tui)
        (initialModel (W:=Desk.world) (Sh:=Desk.shell) (T:=Desk.tui))
        (KeyMsg KeyTab "x"%char) = Returns (m', c)
      ∧ well_formed m'.
Proof.
  apply (Update_well_formed (W:=Desk.world) (Sh:=Desk.shell) (T:=Desk.tui)).
  split; [reflexivity | split; [discriminate | reflexivity]].
Defined.

(** Enter on the last input of the initial form. *)
Lemma Update_gen_example :
  (∃ k, KeyMsg (KeyData:=ascii) (Other:=unit) KeyEnter "x"%char
        = KeyMsg KeyEnter k)
  ∧ idle Desk.on_last
  ∧ focused Desk.on_last = Z.of_nat (length (inputs Desk.on_last)) - 1
  ∧ loading
      (Model (T:=Desk.tui) (map (ti_Blur (Tui:=Desk.tui)) (inputs Desk.on_last))
         2 0%nat true 0 false None) = true
  ∧ ∃ tp to tf,
      map (ti_Blur (Tui:=Desk.tui)) (inputs Desk.on_last) !! 0%nat = Some tp
      ∧ map (ti_Blur (Tui:=Desk.tui)) (inputs Desk.on_last) !! 1%nat = Some to
      ∧ map (ti_Blur (Tui:=Desk.tui)) (inputs Desk.on_last) !! 2%nat = Some tf
      ∧ "" = ti_Value (Tui:=Desk.tui) tp
      ∧ "" = ti_Value (Tui:=Desk.tui) to
      ∧ "" = ti_Value (Tui:=Desk.tui) tf.
Proof.
  apply (Update_gen (W:=Desk.world) (Sh:=Desk.shell) (T:=Desk.tui)
           Desk.on_last (KeyMsg KeyEnter "x"%char)).
  reflexivity.
Defined.

(** Enter on the form at the end of a conversion. *)
Lemma Update_reset_example :
  ∃ m',
    Update (W:=Desk.world) (Sh:=Desk.shell) (T:=Desk.tui) Desk.at_end
      (KeyMsg KeyEnter "x"%char) = Returns (m', CmdNil)
    ∧ idle m' ∧ focused m' = 0 ∧ spinner m' = 7%nat
    ∧ inputs m' =
        zip_with set_Width [30; Int.quot 30 2; Int.quot 30 2]
          (inputs (initialModel (W:=Desk.world) (Sh:=Desk.shell)
                     (T:=Desk.tui))).
Proof.
  apply (Update_reset (W:=Desk.world) (Sh:=Desk.shell) (T:=Desk.tui)
           Desk.at_end "x"%char
           (TextInput "/path/to/folder/" 30 "" 0 None (true, ""))).
  - reflexivity.
  - left. reflexivity.
  - reflexivity.
Defined.
